(** * WebdriverIO: service initialisation and the selenium-standalone launcher

    A shallow embedding of

    - [packages/wdio-utils/src/initialiseServices.ts]
      ([initialiseServices], [sanitizeServiceArray],
      [initialiseLauncherService], [initialiseWorkerService]) and
    - [packages/wdio-selenium-standalone-service/src/launcher.ts]
      (class [SeleniumStandaloneLauncher]).

    JavaScript values are modelled dynamically ([JS.value] with [typeof],
    truthiness and property reads); effects (log lines, calls to the plugin
    loader, constructor calls, file-system and child-process operations) are
    recorded in a chronological trace threaded through a small
    state-and-exception monad. *)

From Stdlib Require Import ZArith.
From stdpp Require Import gmap strings list fin_maps pretty.

Set Warnings "-register-all".

(** ** JavaScript values and the effect monad *)

Module JS.

(** The fragment of the value universe the two source files inspect.
    Numbers are the integers (ports and the like). Objects are maps of own
    data properties; a function carries its [name] and its own properties
    (static members such as [launcher] or [default]). *)
Inductive value : Type :=
| VUndefined
| VNull
| VBool (b : bool)
| VNumber (n : Z)
| VString (s : string)
| VArray (items : list value)
| VObject (props : gmap string value)
| VFunction (name : string) (props : gmap string value).

(** The [typeof] operator. *)
Definition typeof (v : value) : string :=
  match v with
  | VUndefined => "undefined"
  | VNull => "object"
  | VBool _ => "boolean"
  | VNumber _ => "number"
  | VString _ => "string"
  | VArray _ => "object"
  | VObject _ => "object"
  | VFunction _ _ => "function"
  end.

(** [ToBoolean]: what [if (v)], [!v], [a || b], [a && b] and [Boolean(v)]
    look at. *)
Definition truthy (v : value) : bool :=
  match v with
  | VUndefined | VNull => false
  | VBool b => b
  | VNumber n => negb (n =? 0)%Z
  | VString s => negb (String.eqb s EmptyString)
  | VArray _ | VObject _ | VFunction _ _ => true
  end.

(** [a || b] on values. *)
Definition or_else (a b : value) : value := if truthy a then a else b.

(** Thrown values: the engine's own [TypeError], or whatever user code
    (a plugin loader, a constructor) throws. *)
Inductive exn : Type :=
| TypeError (msg : string)
| Thrown (v : value).

Inductive result (A : Type) : Type :=
| Ok (a : A)
| Throw (e : exn).
Arguments Ok {A} a.
Arguments Throw {A} e.

(** Reading a property [v.k]. Reading from [undefined] or [null] throws;
    primitives and arrays have none of the properties the sources read
    ([launcher], [default]); a function answers [name] with its name unless
    it has an own property of that name. *)
Definition get (v : value) (k : string) : result value :=
  match v with
  | VUndefined | VNull =>
      Throw (TypeError ("Cannot read properties of " +:+
                        (if v is VNull then "null" else "undefined") +:+
                        " (reading '" +:+ k +:+ "')"))
  | VBool _ | VNumber _ | VString _ | VArray _ => Ok VUndefined
  | VObject props => Ok (default VUndefined (props !! k))
  | VFunction name props =>
      Ok (match props !! k with
          | Some x => x
          | None => if String.eqb k "name" then VString name else VUndefined
          end)
  end.

(** Reading an element of an array by index; absent elements read as
    [undefined], which is also what array destructuring yields. *)
Definition at_index (arr : list value) (i : nat) : value :=
  default VUndefined (arr !! i).

(** A destructuring default [x = d]: applies when the element is
    [undefined]. *)
Definition with_default (v d : value) : value :=
  match v with VUndefined => d | _ => v end.

(** [ToString] as used by template literals. The templates of the sources
    interpolate service names and function names only, which are primitive
    values; for an object the generic tag is produced, for a function its
    name stands for its source text. *)
Fixpoint ToString (v : value) : string :=
  match v with
  | VUndefined => "undefined"
  | VNull => "null"
  | VBool true => "true"
  | VBool false => "false"
  | VNumber n => pretty n
  | VString s => s
  | VArray items =>
      String.concat ","
        (List.map (fun x => match x with
                            | VUndefined | VNull => EmptyString
                            | _ => ToString x
                            end) items)
  | VObject _ => "[object Object]"
  | VFunction name _ => name
  end.

(** *** State, exceptions and a trace of events

    [M E L A] is a computation over local mutable state [L] that appends
    events of type [E] to a chronological trace and either returns an [A]
    or throws. State changes and emitted events survive a throw, as they
    do in JavaScript. *)
Section Monad.
Context {E L : Type}.

Definition M (A : Type) : Type := L -> list E -> L * list E * result A.

Definition ret {A} (a : A) : M A := fun l t => (l, t, Ok a).

Definition bind {A B} (m : M A) (f : A -> M B) : M B :=
  fun l t =>
    match m l t with
    | (l', t', Ok a) => f a l' t'
    | (l', t', Throw e) => (l', t', Throw e)
    end.

Definition throw {A} (e : exn) : M A := fun l t => (l, t, Throw e).

Definition lift {A} (r : result A) : M A := fun l t => (l, t, r).

Definition emit (ev : E) : M unit := fun l t => (l, t ++ [ev], Ok tt).

Definition read : M L := fun l t => (l, t, Ok l).

Definition modify (f : L -> L) : M unit := fun l t => (f l, t, Ok tt).

(** [try { body } catch (err) { handler err }]. *)
Definition try_catch {A} (body : M A) (handler : exn -> M A) : M A :=
  fun l t =>
    match body l t with
    | (l', t', Throw e) => handler e l' t'
    | r => r
    end.

(** [for (const x of xs) { body x }] and [xs.forEach(body)]. *)
Fixpoint for_of {A} (xs : list A) (body : A -> M unit) : M unit :=
  match xs with
  | [] => ret tt
  | x :: rest => bind (body x) (fun _ => for_of rest body)
  end.

(** [n] invocations of [m] in succession. *)
Fixpoint times (n : nat) (m : M unit) : M unit :=
  match n with
  | O => ret tt
  | S k => bind m (fun _ => times k m)
  end.

(** [xs.map(callback)] with an effectful callback. *)
Fixpoint array_map {A B} (xs : list A) (callback : A -> M B) : M (list B) :=
  match xs with
  | [] => ret []
  | x :: rest =>
      bind (callback x) (fun y =>
      bind (array_map rest callback) (fun ys => ret (y :: ys)))
  end.
End Monad.

Arguments M : clear implicits.

(** Variables declared inside a function body: [body] runs on a fresh local
    state [init], which is dropped when the function returns or throws. *)
Definition scope {E L L' A} (init : L') (body : M E L' A) : M E L A :=
  fun l t => let '(_, t', r) := body init t in (l, t', r).

(** Running a computation that has no local state from the empty trace:
    the events it emits and its outcome. *)
Definition exec {E A} (m : M E unit A) : list E * result A :=
  let '(_, t, r) := m tt [] in (t, r).

Definition result_map {A B} (f : A -> B) (r : result A) : result B :=
  match r with Ok a => Ok (f a) | Throw e => Throw e end.

(** A computation without local state, run from any trace, appends what
    [exec] reports. *)
Definition framed {E A} (m : M E unit A) : Prop :=
  forall t, m tt t = (tt, t ++ (exec m).1, (exec m).2).

End JS.

Import JS.

Declare Scope js_scope.
Delimit Scope js_scope with js.
Notation "x <- m ;; k" := (bind m (fun x => k))
  (at level 100, m at next level, right associativity) : js_scope.
Notation "m ;; k" := (bind m (fun _ => k))
  (at level 100, right associativity) : js_scope.
Open Scope js_scope.

(** The double-quote character, for log messages that quote a name. *)
Definition dquote : string := String (Ascii.ascii_of_nat 34) EmptyString.

(** ** Service initialisation ([initialiseServices.ts]) *)

Module Services.

(** The wdio configuration: [services] is optional in the type and read
    through a non-null assertion ([config.services!]); everything else in
    the configuration is opaque here. *)
Record Config : Type := {
  services : option (list value);
  settings : value
}.

(** What the environment observes of this module. *)
Inductive event : Type :=
| LogDebug (msg : string)                     (* log.debug(msg) *)
| LogError (err : exn)                        (* log.error(err) *)
| Load (name : value) (type : string)         (* initialisePlugin(name, type) *)
| Construct (F serviceConfig caps : value) (config : Config).
                                              (* new F(serviceConfig, caps, config) *)

(** The arrays [initialiseLauncherService] declares before its [try]. *)
Record launcher_result : Type := {
  ignoredWorkerServices : list value;
  launcherServices : list value
}.

Definition push_ignoredWorkerServices (v : value) (r : launcher_result) :=
  {| ignoredWorkerServices := ignoredWorkerServices r ++ [v];
     launcherServices := launcherServices r |}.

Definition push_launcherServices (v : value) (r : launcher_result) :=
  {| ignoredWorkerServices := ignoredWorkerServices r;
     launcherServices := launcherServices r ++ [v] |}.

(** [ignoredWorkerServices.includes(serviceName)] for an ignore list of
    strings: [includes] compares with SameValueZero, under which a string
    equals only an equal string. *)
Definition includes (ignored : list string) (serviceName : value) : bool :=
  match serviceName with
  | VString s => bool_decide (s ∈ ignored)
  | _ => false
  end.

(** [sanitizeServiceArray]: [Array.isArray(service) ? service : [service, {}]]. *)
Definition sanitizeServiceArray (service : value) : list value :=
  match service with
  | VArray items => items
  | _ => [service; VObject ∅]
  end.

(** What a [new] expression evaluates to.  It is the freshly allocated
    object, unless the constructor body returns an object of its own, which
    may be an array or a function; a primitive returned by the body is
    discarded in favour of the fresh object.  So the value is never a
    primitive, [null] or [undefined]. *)
Inductive instance :=
| Instance (props : gmap string value)
| InstanceArray (items : list value)
| InstanceFunction (name : string) (props : gmap string value).

Definition instance_value (inst : instance) : value :=
  match inst with
  | Instance props => VObject props
  | InstanceArray items => VArray items
  | InstanceFunction name props => VFunction name props
  end.

Section WithEnvironment.
(** [./initialisePlugin] is not among the sources: the plugin loader is a
    parameter, returning the loaded module or throwing. *)
Variable initialisePlugin : value -> string -> result value.
(** What running a constructor does: [new F(serviceConfig, caps, config)]
    yields an instance or throws. *)
Variable construct : value -> value -> value -> Config -> result instance.

Context {L : Type}.

Definition log_debug {L'} (msg : string) : M event L' unit := emit (LogDebug msg).
Definition log_error {L'} (err : exn) : M event L' unit := emit (LogError err).

Definition call_initialisePlugin {L'} (name : value) (type : string)
  : M event L' value :=
  emit (Load name type) ;;
  lift (initialisePlugin name type).

Definition new {L'} (F serviceConfig caps : value) (config : Config)
  : M event L' value :=
  emit (Construct F serviceConfig caps config) ;;
  inst <- lift (construct F serviceConfig caps config) ;;
  ret (instance_value inst).

(** One iteration of the loop of [initialiseServices]; the result is the
    tuple the iteration pushes. *)
Definition initialiseService {L'} (entry : list value) : M event L' (list value) :=
  let serviceName := at_index entry 0 in
  let serviceConfig := with_default (at_index entry 1) (VObject ∅) in
  if String.eqb (typeof serviceName) "object" then
    log_debug "initialise custom initiated service" ;;
    ret [serviceName; VObject ∅]
  else if String.eqb (typeof serviceName) "function" then
    name <- lift (get serviceName "name") ;;
    log_debug ("initialise custom service " +:+ dquote +:+ ToString name +:+ dquote) ;;
    ret [serviceName; serviceConfig]
  else
    log_debug ("initialise service " +:+ dquote +:+ ToString serviceName +:+ dquote
               +:+ " as NPM package") ;;
    service <- call_initialisePlugin serviceName "service" ;;
    ret [service; serviceConfig; serviceName].

(** [initialiseServices]: the loop, pushing onto [initialisedServices]. *)
Fixpoint initialiseServices_loop {L'} (services : list (list value))
    (initialisedServices : list (list value)) : M event L' (list (list value)) :=
  match services with
  | [] => ret initialisedServices
  | entry :: rest =>
      tuple <- initialiseService entry ;;
      initialiseServices_loop rest (initialisedServices ++ [tuple])
  end.

Definition initialiseServices {L'} (services : list (list value))
  : M event L' (list (list value)) :=
  initialiseServices_loop services [].

(** [config.services!]: reading [map] off an absent list throws. *)
Definition config_services {L'} (config : Config) : M event L' (list value) :=
  match services config with
  | Some l => ret l
  | None => throw (TypeError "Cannot read properties of undefined (reading 'map')")
  end.

(** The body of the loop of [initialiseLauncherService]. *)
Definition launcher_iteration (config : Config) (caps : value) (tuple : list value)
  : M event launcher_result unit :=
  let service := at_index tuple 0 in
  let serviceConfig := at_index tuple 1 in
  let serviceName := at_index tuple 2 in
  if String.eqb (typeof service) "object" && negb (truthy serviceName) then
    modify (push_launcherServices service)
  else
    launcher <- lift (get service "launcher") ;;
    let Launcher := or_else launcher service in
    (if String.eqb (typeof Launcher) "function" then
       instance <- new Launcher serviceConfig caps config ;;
       modify (push_launcherServices instance)
     else ret tt) ;;
    if truthy serviceName then
      default_export <- lift (get service "default") ;;
      if negb (String.eqb (typeof default_export) "function")
         && negb (String.eqb (typeof service) "function")
      then modify (push_ignoredWorkerServices serviceName)
      else ret tt
    else ret tt.

(** The [try] block of [initialiseLauncherService]. *)
Definition launcher_try (config : Config) (caps : value)
  : M event launcher_result unit :=
  entries <- config_services config ;;
  services <- initialiseServices (List.map sanitizeServiceArray entries) ;;
  for_of services (launcher_iteration config caps).

Definition initialiseLauncherService (config : Config) (caps : value)
  : M event L launcher_result :=
  scope {| ignoredWorkerServices := []; launcherServices := [] |}
    (try_catch (launcher_try config caps) (fun err => log_error err) ;;
     read).

(** The callback of [services.map] in [initialiseWorkerService]; a
    callback that falls off its end returns [undefined]. *)
Definition worker_callback (config : Config) (caps : value) (tuple : list value)
  : M event L value :=
  let service := at_index tuple 0 in
  let serviceConfig := at_index tuple 1 in
  let serviceName := at_index tuple 2 in
  if String.eqb (typeof service) "object" && negb (truthy serviceName) then
    ret service
  else
    default_export <- lift (get service "default") ;;
    let Service := or_else default_export service in
    if String.eqb (typeof Service) "function" then
      new Service serviceConfig caps config
    else ret VUndefined.

(** The [try] block of [initialiseWorkerService]. *)
Definition worker_try (config : Config) (caps : value)
    (workerServices : list (list value)) : M event L (list value) :=
  services <- initialiseServices workerServices ;;
  instances <- array_map services (worker_callback config caps) ;;
  ret (List.filter truthy instances).

Definition initialiseWorkerService (config : Config) (caps : value)
    (ignoredWorkerServices : list string) : M event L (list value) :=
  entries <- config_services config ;;
  let workerServices :=
    List.filter (fun entry => negb (includes ignoredWorkerServices (at_index entry 0)))
                (List.map sanitizeServiceArray entries) in
  try_catch (worker_try config caps workerServices)
            (fun err => log_error err ;; ret []).
End WithEnvironment.

(** *** Notions used to state the properties of this module *)

(** The two arrays as declared, before the [try]. *)
Definition empty_result : launcher_result :=
  {| ignoredWorkerServices := []; launcherServices := [] |}.

(** [services.filter(...)] of [initialiseWorkerService]. *)
Definition workerServices_of (ignored : list string) (entries : list value)
  : list (list value) :=
  List.filter (fun entry => negb (includes ignored (at_index entry 0)))
              (List.map sanitizeServiceArray entries).

(** The events resolution of [entry] may emit: debug lines, and a request
    to the loader for the entry's own name when that name is neither an
    object nor a function. *)
Definition resolution_event (entry : list value) (ev : event) : Prop :=
  match ev with
  | LogDebug _ => True
  | Load name type =>
      name = at_index entry 0 /\ type = "service" /\
      typeof name <> "object" /\ typeof name <> "function"
  | _ => False
  end.

(** A resolved tuple that yields no constructable value: it is not a
    pre-built object (an object without a source name), its default export
    can be read and is not callable, and it is not callable itself. *)
Definition no_constructable_value (tuple : list value) : Prop :=
  let service := at_index tuple 0 in
  let serviceName := at_index tuple 2 in
  (String.eqb (typeof service) "object" && negb (truthy serviceName) = false) /\
  exists default_export,
    get service "default" = Ok default_export /\
    typeof default_export <> "function" /\
    typeof service <> "function".

(** The three forms of a service entry: a package name, a class, or a
    pre-built object (each alone or as the head of a pair). *)
Definition is_service_entry (entry : value) : bool :=
  let head := typeof (at_index (sanitizeServiceArray entry) 0) in
  String.eqb head "string" || String.eqb head "object" || String.eqb head "function".

(** A concrete environment for the examples. Two packages can be loaded:
    [plain], a module with no exports, and [devtools], a module with a
    default-exported worker class and a launcher class. Every class
    constructs an object that records the class's name, except [Broken],
    whose constructor throws. *)
Definition example_loader (name : value) (type : string) : result value :=
  match name with
  | VString "plain" => Ok (VObject ∅)
  | VString "devtools" =>
      Ok (VObject {[ "default" := VFunction "DevToolsService" ∅;
                     "launcher" := VFunction "DevToolsLauncher" ∅ ]})
  | _ => Throw (Thrown (VString "Couldn't find plugin"))
  end.

Definition example_construct (F serviceConfig caps : value) (config : Config)
  : result instance :=
  match F with
  | VFunction "Broken" _ => Throw (Thrown (VString "boom"))
  | VFunction name _ => Ok (Instance {[ "instanceOf" := VString name ]})
  | _ => Throw (TypeError "Launcher is not a constructor")
  end.

(** *** Notions used to state further properties *)

(** An entry that is resolved through the plugin loader: its head is
    neither an object nor a function. *)
Definition is_named (entry : list value) : bool :=
  negb (String.eqb (typeof (at_index entry 0)) "object")
  && negb (String.eqb (typeof (at_index entry 0)) "function").

(** The requests made to the plugin loader in a trace, in order. *)
Definition loads (t : list event) : list (value * string) :=
  omap (fun ev => match ev with Load name type => Some (name, type) | _ => None end) t.


(** The tuple [initialiseServices] pushes for [entry], given what the loader
    returned for it (if it was asked). *)
Definition resolves_to (initialisePlugin : value -> string -> result value)
    (entry tuple : list value) : Prop :=
  let serviceName := at_index entry 0 in
  let serviceConfig := with_default (at_index entry 1) (VObject ∅) in
  (typeof serviceName = "object" /\ tuple = [serviceName; VObject ∅]) \/
  (typeof serviceName = "function" /\ tuple = [serviceName; serviceConfig]) \/
  (is_named entry = true /\
   exists service, initialisePlugin serviceName "service" = Ok service /\
                   tuple = [service; serviceConfig; serviceName]).

(** A constructor call of a run with capabilities [caps] and configuration
    [config]: the callee is a function and receives exactly these. *)
Definition sound_event (config : Config) (caps : value) (ev : event) : Prop :=
  match ev with
  | Construct F _ caps' config' =>
      typeof F = "function" /\ caps' = caps /\ config' = config
  | _ => True
  end.

(** A module with nothing for a worker: its default export reads as a value
    that is not callable, and the module is not callable itself. *)
Definition no_worker_export (service : value) : Prop :=
  exists default_export,
    get service "default" = Ok default_export /\
    typeof default_export <> "function" /\
    typeof service <> "function".

(** *** Notions used to state what an exception does *)

(** A resolved tuple on which the body of the launcher's loop raises no
    exception, said in terms of the tuple and the constructors alone. A
    nameless object is pushed as it is. Otherwise the [launcher] property
    of the module can be read, which means that the module is neither
    [null] nor [undefined], and the class the loop instantiates (that
    property or else the module itself, when it is a function) constructs
    without throwing. *)
Definition launcher_body_safe
    (construct : value -> value -> value -> Config -> result instance)
    (config : Config) (caps : value) (tuple : list value) : Prop :=
  let service := at_index tuple 0 in
  let serviceName := at_index tuple 2 in
  (typeof service = "object" /\ truthy serviceName = false) \/
  (exists launcher,
      get service "launcher" = Ok launcher /\
      (typeof (or_else launcher service) = "function" ->
       exists inst,
         construct (or_else launcher service) (at_index tuple 1) caps config = Ok inst)).

(** The exception the worker's callback raises on a resolved tuple, said
    in the same terms: the tuple is not a nameless object, and either
    reading [default] off the module throws, or the class the callback
    instantiates (the default export or else the module itself, when it is
    a function) throws. *)
Definition worker_body_throws
    (construct : value -> value -> value -> Config -> result instance)
    (config : Config) (caps : value) (tuple : list value) (e : exn) : Prop :=
  let service := at_index tuple 0 in
  let serviceName := at_index tuple 2 in
  ~ (typeof service = "object" /\ truthy serviceName = false) /\
  (get service "default" = Throw e \/
   exists default_export,
     get service "default" = Ok default_export /\
     typeof (or_else default_export service) = "function" /\
     construct (or_else default_export service) (at_index tuple 1) caps config = Throw e).

(** A resolved tuple with nothing to construct, in the widest reading: it
    is not a pre-built object (an object without a source name), it is not
    callable, and no default export can be read off it that is callable.
    A named module that is [null] or [undefined] falls under this reading,
    and is all that separates it from [no_constructable_value]. *)
Definition nothing_callable (tuple : list value) : Prop :=
  let service := at_index tuple 0 in
  let serviceName := at_index tuple 2 in
  ~ (typeof service = "object" /\ truthy serviceName = false) /\
  typeof service <> "function" /\
  (forall default_export,
      get service "default" = Ok default_export -> typeof default_export <> "function").

(** A second environment for the examples, with three more packages: one
    whose name is the empty string, [ghost], which loads as [null], and
    [half], a module whose only export is a launcher class with a throwing
    constructor. *)
Definition edge_loader (name : value) (type : string) : result value :=
  match name with
  | VString EmptyString => Ok (VObject ∅)
  | VString "ghost" => Ok VNull
  | VString "half" => Ok (VObject {[ "launcher" := VFunction "Broken" ∅ ]})
  | _ => example_loader name type
  end.

End Services.

(** ** The selenium-standalone launcher ([launcher.ts]) *)

Module Selenium.

Definition DEFAULT_LOG_FILENAME : string := "wdio-selenium-standalone.log".

Definition DEFAULT_CONNECTION : gmap string value :=
  {[ "protocol" := VString "http";
     "hostname" := VString "localhost";
     "port" := VNumber 4444;
     "path" := VString "/wd/hub" ]}.

(** [interface Config]: both fields optional, [VUndefined] when absent. *)
Record Config : Type := {
  outputDir : value;
  watch : value
}.

(** [interface SeleniumStandaloneOptions]: all fields optional. *)
Module SeleniumStandaloneOptions.
Record t : Type := {
  logPath : value;
  installArgs : value;
  args : value;
  skipSeleniumInstall : value
}.
End SeleniumStandaloneOptions.

(** Capability descriptors are objects shared with the caller and mutated
    in place: they live in a store and are held by reference. *)
Definition loc : Type := nat.
Definition heap : Type := loc -> gmap string value.

Definition store (h : heap) (r : loc) (o : gmap string value) : heap :=
  fun r' => if decide (r' = r) then o else h r'.

(** [capabilities: any]: a list of descriptors, or the keyed multiremote
    form whose values are the descriptors (in property order). *)
Inductive capabilities_t : Type :=
| CapabilityList (caps : list loc)
| MultiRemote (caps : list (string * loc)).

(** [Array.isArray(c) ? c : Object.values(c)]. *)
Definition descriptors (c : capabilities_t) : list loc :=
  match c with
  | CapabilityList caps => caps
  | MultiRemote caps => List.map snd caps
  end.

(** Function values built from the two operations of the [selenium-standalone]
    dependency. Building one does not invoke the operation. A term of this
    type says how a function was built and carries no identity: [bind] and
    [promisify] return a new function object at every call, so two values
    with the same description are not the same object in the program. *)
Inductive fn_value : Type :=
| SeleniumStandalone_install
| SeleniumStandalone_start
| bound (f : fn_value) (thisArg : value)       (* f.bind(thisArg) *)
| promisified (f : fn_value).                  (* promisify(f) *)

Definition bind_this (f : fn_value) (thisArg : value) : fn_value := bound f thisArg.
Definition promisify (f : fn_value) : fn_value := promisified f.

(** A child-process handle, as the dependency's [start] hands out. *)
Definition handle : Type := nat.

(** What the field [process] can hold at run time: nothing yet (it is
    declared with [!] and has no initialiser), a child-process handle, or a
    function value. *)
Inductive process_value : Type :=
| PUndefined
| PChild (h : handle)
| PFunction (f : fn_value).

Definition process_truthy (p : process_value) : bool :=
  match p with PUndefined => false | _ => true end.

Inductive stream : Type := stdout | stderr.

(** What the environment observes of the launcher. [Install] and [Start]
    are invocations of the dependency's operations, [ChildOn] a listener
    registered on a child-process handle, [HostOn] one registered on the
    host process ([process.on]). The listener is always [_stopProcess]. *)
Inductive event : Type :=
| Install (installArgs : value)
| Start (args : value)
| EnsureFile (path : string)                          (* fs.ensureFileSync *)
| CreateWriteStream (path : string)                   (* flags: 'w' *)
| Pipe (h : handle) (s : stream) (path : string)
| ChildOn (h : handle) (ev : string)
| HostOn (ev : string)
| Kill (h : handle)
| LogInfo (msg : string).

(** The fields of [SeleniumStandaloneLauncher]. *)
Record SeleniumStandaloneLauncher : Type := {
  capabilities : capabilities_t;
  logPath : value;
  args : value;
  installArgs : value;
  skipSeleniumInstall : bool;
  watchMode : bool;
  process : process_value
}.

Record state : Type := {
  this : SeleniumStandaloneLauncher;
  caps_heap : heap
}.

Definition set_watchMode (b : bool) (st : state) : state :=
  let o := this st in
  {| this := {| capabilities := capabilities o; logPath := logPath o; args := args o;
                installArgs := installArgs o;
                skipSeleniumInstall := skipSeleniumInstall o;
                watchMode := b; process := process o |};
     caps_heap := caps_heap st |}.

Definition set_process (p : process_value) (st : state) : state :=
  let o := this st in
  {| this := {| capabilities := capabilities o; logPath := logPath o; args := args o;
                installArgs := installArgs o;
                skipSeleniumInstall := skipSeleniumInstall o;
                watchMode := watchMode o; process := p |};
     caps_heap := caps_heap st |}.

Definition set_heap (h : heap) (st : state) : state :=
  {| this := this st; caps_heap := h |}.

(** [constructor(options, capabilities, config)]. *)
Definition constructor (options : SeleniumStandaloneOptions.t)
    (capabilities : capabilities_t) (config : Config) : SeleniumStandaloneLauncher :=
  {| capabilities := capabilities;
     logPath := or_else (SeleniumStandaloneOptions.logPath options) (outputDir config);
     args := or_else (SeleniumStandaloneOptions.args options) (VObject ∅);
     installArgs := or_else (SeleniumStandaloneOptions.installArgs options) (VObject ∅);
     skipSeleniumInstall := truthy (SeleniumStandaloneOptions.skipSeleniumInstall options);
     watchMode := false;
     process := PUndefined |}.

(** [Object.assign(target, ...sources)] on plain data objects: every source
    in turn overwrites the target's properties of the same name. *)
Definition Object_assign (target : gmap string value)
    (sources : list (gmap string value)) : gmap string value :=
  foldl (fun acc source => source ∪ acc) target sources.

(** [{ ...o }]: a copy of the own properties. *)
Definition spread (o : gmap string value) : gmap string value := o.

(** [await v] for a [v] that is not a thenable (a function has no [then]):
    execution resumes with [v] itself. *)
Definition await {E L} (v : fn_value) : M E L fn_value := ret v.

Section WithEnvironment.
(** [getFilePath] of [./utils] is not among the sources: a parameter. *)
Variable getFilePath : value -> string -> string.
(** [fs.ensureFileSync(path)]: succeeds, or throws the given error. *)
Variable ensureFileSync : string -> option exn.
(** Whether the [stdout] (or [stderr]) property of a child process is a
    stream: it is [null] when the child was spawned with that descriptor
    not piped. *)
Variable child_stream : handle -> stream -> bool.

Local Abbreviation Cmd := (M event state).

(** [(cap) => Object.assign(cap, DEFAULT_CONNECTION, { ...cap })]. *)
Definition assign_default_connection (cap : loc) : Cmd unit :=
  modify (fun st =>
    let o := caps_heap st cap in
    set_heap (store (caps_heap st) cap (Object_assign o [DEFAULT_CONNECTION; spread o])) st).

(** [this.process.on(ev, this._stopProcess)]. *)
Definition process_on (ev : string) : Cmd unit :=
  st <- read ;;
  match process (this st) with
  | PUndefined => throw (TypeError "Cannot read properties of undefined (reading 'on')")
  | PChild h => emit (ChildOn h ev)
  | PFunction _ => throw (TypeError "this.process.on is not a function")
  end.

(** [this.process.kill()]. *)
Definition process_kill : Cmd unit :=
  st <- read ;;
  match process (this st) with
  | PUndefined => throw (TypeError "Cannot read properties of undefined (reading 'kill')")
  | PChild h => emit (Kill h)
  | PFunction _ => throw (TypeError "this.process.kill is not a function")
  end.

(** [this.process.stdout?.pipe(logStream)] (and the same for [stderr]):
    the optional call is skipped when the property is [null] or
    [undefined], which is the case for a stream the child does not have
    and for a function value, which has neither property. *)
Definition process_pipe (s : stream) (logFile : string) : Cmd unit :=
  st <- read ;;
  match process (this st) with
  | PUndefined => throw (TypeError "Cannot read properties of undefined (reading 'stdout')")
  | PChild h => if child_stream h s then emit (Pipe h s logFile) else ret tt
  | PFunction _ => ret tt
  end.

Definition _redirectLogStream : Cmd unit :=
  st <- read ;;
  let logFile := getFilePath (logPath (this st)) DEFAULT_LOG_FILENAME in
  emit (EnsureFile logFile) ;;
  match ensureFileSync logFile with
  | Some err => throw err
  | None =>
      emit (CreateWriteStream logFile) ;;
      process_pipe stdout logFile ;;
      process_pipe stderr logFile
  end.

Definition _stopProcess : Cmd unit :=
  st <- read ;;
  if process_truthy (process (this st)) then
    emit (LogInfo "shutting down all browsers") ;;
    process_kill
  else ret tt.

(** [async onPrepare(config)]: a throw is a rejection of the returned
    promise. *)
Definition onPrepare (config : Config) : Cmd unit :=
  modify (set_watchMode (truthy (watch config))) ;;
  st <- read ;;
  (if negb (skipSeleniumInstall (this st)) then
     _ <- await (promisify (bind_this SeleniumStandalone_install (installArgs (this st)))) ;;
     ret tt
   else ret tt) ;;
  for_of (descriptors (capabilities (this st))) assign_default_connection ;;
  modify (set_process
            (PFunction (promisify (bind_this SeleniumStandalone_start (args (this st)))))) ;;
  (if String.eqb (typeof (logPath (this st))) "string" then _redirectLogStream
   else ret tt) ;;
  if watchMode (this st) then
    process_on "SIGINT" ;;
    process_on "exit" ;;
    process_on "uncaughtException"
  else ret tt.

Definition onComplete : Cmd unit :=
  st <- read ;;
  if negb (watchMode (this st)) then _stopProcess else ret tt.

(** The events of log redirection when [this.process] holds a function
    value (nothing is piped), and the error it may throw. *)
Definition redirect_events (st : state) : list event :=
  if String.eqb (typeof (logPath (this st))) "string" then
    let logFile := getFilePath (logPath (this st)) DEFAULT_LOG_FILENAME in
    EnsureFile logFile ::
      match ensureFileSync logFile with
      | Some _ => []
      | None => [CreateWriteStream logFile]
      end
  else [].

Definition redirect_error (st : state) : option exn :=
  if String.eqb (typeof (logPath (this st))) "string" then
    ensureFileSync (getFilePath (logPath (this st)) DEFAULT_LOG_FILENAME)
  else None.
End WithEnvironment.

(** Number of [kill]s issued on handle [h] in a trace. *)
Definition kills (h : handle) (t : list event) : nat :=
  length (List.filter (fun ev => match ev with Kill h' => Nat.eqb h' h | _ => false end) t).

(** *** Notions used to state the properties of this module *)

(** The store after the [forEach]: every listed descriptor is merged (once,
    however often it is listed), everything else is untouched. *)
Definition merged_heap (caps : list loc) (h : heap) : heap :=
  fun r => if bool_decide (r ∈ caps) then h r ∪ DEFAULT_CONNECTION else h r.

(** The capability descriptors of a capabilities value, said without
    reference to the way [onPrepare] enumerates them: the elements of the
    list form, and the property values of the keyed form. *)
Inductive is_descriptor : capabilities_t -> loc -> Prop :=
| descriptor_of_list caps cap :
    cap ∈ caps -> is_descriptor (CapabilityList caps) cap
| descriptor_of_key caps key cap :
    (key, cap) ∈ caps -> is_descriptor (MultiRemote caps) cap.

(** The function value [onPrepare] stores in [this.process]. *)
Definition start_function (st : state) : process_value :=
  PFunction (promisify (bind_this SeleniumStandalone_start (args (this st)))).

(** The state [onPrepare] leaves behind. *)
Definition prepared (config : Config) (st : state) : state :=
  set_process (start_function st)
    (set_heap (merged_heap (descriptors (capabilities (this st))) (caps_heap st))
       (set_watchMode (truthy (watch config)) st)).

(** A concrete environment and launcher for the examples: two descriptors
    in list form, the first with a port of its own; no log path. *)
Definition example_getFilePath (dir : value) (file : string) : string :=
  ToString dir +:+ "/" +:+ file.

Definition example_ensureFileSync (path : string) : option exn := None.

(** Children with both streams, and children spawned without a piped
    standard error. *)
Definition example_child_stream (h : handle) (s : stream) : bool := true.

Definition stdout_only (h : handle) (s : stream) : bool :=
  match s with stdout => true | stderr => false end.

Definition example_heap : heap :=
  fun r =>
    match r with
    | O => {[ "browserName" := VString "chrome"; "port" := VNumber 9515 ]}
    | _ => ∅
    end.

Definition example_launcher : SeleniumStandaloneLauncher :=
  constructor
    {| SeleniumStandaloneOptions.logPath := VUndefined;
       SeleniumStandaloneOptions.installArgs := VUndefined;
       SeleniumStandaloneOptions.args := VUndefined;
       SeleniumStandaloneOptions.skipSeleniumInstall := VUndefined |}
    (CapabilityList [0; 1])
    {| outputDir := VUndefined; watch := VUndefined |}.

Definition example_state (p : process_value) : state :=
  set_process p {| this := example_launcher; caps_heap := example_heap |}.

(** *** Further examples *)

(** A file system on which the log file cannot be created. *)
Definition failing_ensureFileSync (path : string) : option exn :=
  Some (Thrown (VString "EACCES: permission denied")).

(** The example launcher with a log path. *)
Definition example_logging_state (p : process_value) : state :=
  set_process p
    {| this := constructor
                 {| SeleniumStandaloneOptions.logPath := VString "logs";
                    SeleniumStandaloneOptions.installArgs := VUndefined;
                    SeleniumStandaloneOptions.args := VUndefined;
                    SeleniumStandaloneOptions.skipSeleniumInstall := VUndefined |}
                 (CapabilityList [0; 1])
                 {| outputDir := VUndefined; watch := VUndefined |};
       caps_heap := example_heap |}.

(** The example launcher with the same two descriptors in keyed form. *)
Definition example_multiremote_state (p : process_value) : state :=
  set_process p
    {| this := constructor
                 {| SeleniumStandaloneOptions.logPath := VUndefined;
                    SeleniumStandaloneOptions.installArgs := VUndefined;
                    SeleniumStandaloneOptions.args := VUndefined;
                    SeleniumStandaloneOptions.skipSeleniumInstall := VUndefined |}
                 (MultiRemote [("browserA", 0); ("browserB", 1)])
                 {| outputDir := VUndefined; watch := VUndefined |};
       caps_heap := example_heap |}.

End Selenium.

(** ** Proof automation *)

Ltac run_cases :=
  unfold bind, lift, throw, ret, modify, read, emit, try_catch in *;
  repeat (case_match; simplify_eq/=); eauto.

Import Services.

(** * Facts about the effect monad *)

Section MonadFacts.
Context {E L : Type}.
Implicit Types (l : L) (t : list E).

(** Inversion of a sequenced computation: either the first part returned
    and the second ran, or the first part threw. *)
Lemma bind_inv {A B} (m : M E L A) (f : A -> M E L B) l t l' t' r :
  bind m f l t = (l', t', r) ->
  (exists l1 t1 a, m l t = (l1, t1, Ok a) /\ f a l1 t1 = (l', t', r)) \/
  (exists e, m l t = (l', t', Throw e) /\ r = Throw e).
Proof.
  unfold bind. destruct (m l t) as [[l1 t1] [a|e]]; intros H.
  - left. eauto.
  - right. inversion H; subst. eauto.
Qed.

Lemma bind_ok {A B} (m : M E L A) (f : A -> M E L B) l t l1 t1 a :
  m l t = (l1, t1, Ok a) -> bind m f l t = f a l1 t1.
Proof. unfold bind. by intros ->. Qed.

Lemma bind_throw {A B} (m : M E L A) (f : A -> M E L B) l t l1 t1 e :
  m l t = (l1, t1, Throw e) -> bind m f l t = (l1, t1, Throw e).
Proof. unfold bind. by intros ->. Qed.
End MonadFacts.

(** * Framed computations

    Computations that only append to the trace can be run from the empty
    trace and replayed anywhere: their [exec] determines them. *)

Section FramedFacts.
Context {E : Type}.

Lemma framed_ret {A} (a : A) : framed (E:=E) (ret a).
Proof. intros t. unfold exec, ret. simpl. by rewrite app_nil_r. Qed.

Lemma framed_throw {A} e : framed (E:=E) (A:=A) (throw e).
Proof. intros t. unfold exec, throw. simpl. by rewrite app_nil_r. Qed.

Lemma framed_lift {A} (r : result A) : framed (E:=E) (lift r).
Proof. intros t. unfold exec, lift. simpl. by rewrite app_nil_r. Qed.

Lemma framed_emit (ev : E) : framed (emit ev).
Proof. intros t. reflexivity. Qed.

(** [exec] of sequenced framed computations. *)
Lemma exec_bind {A B} (m : M E unit A) (f : A -> M E unit B) :
  framed m -> (forall a, framed (f a)) ->
  exec (bind m f) =
  match exec m with
  | (w, Ok a) => (w ++ (exec (f a)).1, (exec (f a)).2)
  | (w, Throw e) => (w, Throw e)
  end.
Proof.
  intros Hm Hf. unfold exec at 1. unfold bind. rewrite (Hm []). simpl.
  destruct (exec m) as [w [a|e]]; simpl; [|done].
  by rewrite (Hf a w).
Qed.

Lemma framed_bind {A B} (m : M E unit A) (f : A -> M E unit B) :
  framed m -> (forall a, framed (f a)) -> framed (bind m f).
Proof.
  intros Hm Hf t. rewrite (exec_bind m f Hm Hf).
  unfold bind. rewrite (Hm t).
  destruct (exec m) as [w [a|e]]; simpl; [|done].
  by rewrite (Hf a (t ++ w)), app_assoc.
Qed.

Lemma exec_try_catch {A} (m : M E unit A) (h : exn -> M E unit A) :
  framed m -> (forall e, framed (h e)) ->
  exec (try_catch m h) =
  match exec m with
  | (w, Ok a) => (w, Ok a)
  | (w, Throw e) => (w ++ (exec (h e)).1, (exec (h e)).2)
  end.
Proof.
  intros Hm Hh. unfold exec at 1. unfold try_catch. rewrite (Hm []). simpl.
  destruct (exec m) as [w [a|e]]; simpl; [done|].
  by rewrite (Hh e w).
Qed.

Lemma framed_try_catch {A} (m : M E unit A) (h : exn -> M E unit A) :
  framed m -> (forall e, framed (h e)) -> framed (try_catch m h).
Proof.
  intros Hm Hh t. rewrite (exec_try_catch m h Hm Hh).
  unfold try_catch. rewrite (Hm t).
  destruct (exec m) as [w [a|e]]; simpl; [done|].
  by rewrite (Hh e (t ++ w)), app_assoc.
Qed.

Lemma framed_array_map {A B} (xs : list A) (f : A -> M E unit B) :
  (forall x, framed (f x)) -> framed (array_map xs f).
Proof.
  intros Hf. induction xs as [|x xs IH]; simpl.
  - apply framed_ret.
  - apply framed_bind; [done|]. intros y.
    apply framed_bind; [done|]. intros ys. apply framed_ret.
Qed.

Lemma exec_array_map_cons {A B} (x : A) (xs : list A) (f : A -> M E unit B) :
  (forall x, framed (f x)) ->
  exec (array_map (x :: xs) f) =
  match exec (f x) with
  | (w, Ok y) => (w ++ (exec (array_map xs f)).1,
                  result_map (cons y) (exec (array_map xs f)).2)
  | (w, Throw e) => (w, Throw e)
  end.
Proof.
  intros Hf. simpl.
  assert (framed (array_map xs f)) as Hxs by by apply framed_array_map.
  rewrite exec_bind; [|done|].
  2:{ intros y. apply framed_bind; [done|]. intros. apply framed_ret. }
  destruct (exec (f x)) as [w [y|e]]; [|done].
  rewrite exec_bind; [|done|intros; apply framed_ret].
  destruct (exec (array_map xs f)) as [w' [ys|e]]; simpl; [|done].
  by rewrite app_nil_r.
Qed.
End FramedFacts.

Create HintDb framed.
#[global] Hint Resolve framed_ret framed_throw framed_lift framed_emit framed_bind
  framed_try_catch framed_array_map : framed.

(** * Service initialisation *)

Section ServicesFacts.
Variable initialisePlugin : value -> string -> result value.
Variable construct : value -> value -> value -> Config -> result instance.

Local Abbreviation initialiseService := (@Services.initialiseService initialisePlugin).
Local Abbreviation initialiseServices_loop := (@Services.initialiseServices_loop initialisePlugin).
Local Abbreviation initialiseServices := (@Services.initialiseServices initialisePlugin).
Local Abbreviation launcher_iteration := (Services.launcher_iteration construct).
Local Abbreviation launcher_try := (Services.launcher_try initialisePlugin construct).
Local Abbreviation initialiseLauncherService :=
  (Services.initialiseLauncherService initialisePlugin construct (L:=unit)).
Local Abbreviation worker_callback := (Services.worker_callback construct (L:=unit)).
Local Abbreviation worker_try := (Services.worker_try initialisePlugin construct (L:=unit)).
Local Abbreviation initialiseWorkerService :=
  (Services.initialiseWorkerService initialisePlugin construct (L:=unit)).

(** Resolution of one entry touches no local state, and what it emits and
    returns does not depend on the trace so far. *)
Lemma initialiseService_exec {L'} (entry : list value) (l : L') t :
  initialiseService (L':=L') entry l t
  = (l, t ++ (exec (initialiseService (L':=unit) entry)).1, (exec (initialiseService (L':=unit) entry)).2).
Proof.
  unfold exec, Services.initialiseService.
  destruct (String.eqb _ "object").
  { reflexivity. }
  destruct (String.eqb _ "function").
  { unfold bind, lift, log_debug, emit, ret.
    destruct (get _ "name"); simpl; by rewrite ?app_nil_r. }
  unfold bind, call_initialisePlugin, bind, lift, log_debug, emit, ret.
  destruct (initialisePlugin _ _); simpl; by rewrite <- app_assoc.
Qed.

Lemma initialiseServices_loop_exec xs : forall L' acc (l : L') t,
  initialiseServices_loop (L':=L') xs acc l t
  = (l, t ++ (exec (initialiseServices_loop (L':=unit) xs acc)).1,
        (exec (initialiseServices_loop (L':=unit) xs acc)).2).
Proof.
  induction xs as [|x xs IH]; intros L' acc l t.
  - simpl. unfold ret. by rewrite app_nil_r.
  - unfold exec. simpl. unfold bind.
    rewrite (initialiseService_exec x l t), (initialiseService_exec x tt []).
    destruct (exec (initialiseService (L':=unit) x)) as [w [tu|e]]; simpl.
    + rewrite (IH L' _ l), (IH unit _ tt). simpl.
      destruct (exec (initialiseServices_loop (L':=unit) xs (acc ++ [tu]))) as [w' r]; simpl.
      by rewrite app_assoc.
    + reflexivity.
Qed.

Lemma framed_initialiseService entry : framed (initialiseService (L':=unit) entry).
Proof. intros t. apply initialiseService_exec. Qed.

Lemma framed_initialiseServices_loop xs acc :
  framed (initialiseServices_loop (L':=unit) xs acc).
Proof. intros t. apply initialiseServices_loop_exec. Qed.

#[local] Hint Resolve framed_initialiseService framed_initialiseServices_loop : framed.

(** The tuple an entry resolves to. *)
Lemma initialiseService_result entry :
  (exec (initialiseService (L':=unit) entry)).2 =
  let serviceName := at_index entry 0 in
  let serviceConfig := with_default (at_index entry 1) (VObject ∅) in
  if String.eqb (typeof serviceName) "object" then Ok [serviceName; VObject ∅]
  else if String.eqb (typeof serviceName) "function" then Ok [serviceName; serviceConfig]
  else result_map (fun service => [service; serviceConfig; serviceName])
                  (initialisePlugin serviceName "service").
Proof.
  unfold exec, Services.initialiseService. simpl.
  destruct (at_index entry 0) as [| |b|n|s|items|props|name props]; simpl; try reflexivity;
    unfold bind, call_initialisePlugin, bind, lift, log_debug, emit, ret; simpl;
    try (destruct (initialisePlugin _ _); reflexivity).
Qed.

Lemma initialiseService_events entry :
  Forall (resolution_event entry) (exec (initialiseService (L':=unit) entry)).1.
Proof.
  unfold exec, Services.initialiseService. simpl.
  destruct (at_index entry 0) as [| |b|n|s|items|props|name props] eqn:Hn; simpl;
    unfold bind, call_initialisePlugin, bind, lift, log_debug, emit, ret; simpl;
    try (destruct (initialisePlugin _ _); simpl);
    repeat constructor; simpl; rewrite ?Hn; try done.
Qed.

Lemma exec_loop_cons x xs acc :
  exec (initialiseServices_loop (L':=unit) (x :: xs) acc) =
  match exec (initialiseService (L':=unit) x) with
  | (w, Ok tuple) =>
      (w ++ (exec (initialiseServices_loop (L':=unit) xs (acc ++ [tuple]))).1,
       (exec (initialiseServices_loop (L':=unit) xs (acc ++ [tuple]))).2)
  | (w, Throw e) => (w, Throw e)
  end.
Proof. simpl. apply exec_bind; auto with framed. Qed.

Lemma loop_events xs acc :
  Forall (fun ev => match ev with
                    | LogDebug _ => True
                    | Load name _ => exists x, x ∈ xs /\ resolution_event x ev
                    | _ => False
                    end)
         (exec (initialiseServices_loop (L':=unit) xs acc)).1.
Proof.
  revert acc. induction xs as [|x xs IH]; intros acc.
  - constructor.
  - rewrite exec_loop_cons.
    pose proof (initialiseService_events x) as Hx.
    destruct (exec (initialiseService (L':=unit) x)) as [w [tu|e]]; simpl in *.
    + apply Forall_app. split.
      * eapply Forall_impl; [exact Hx|]. intros [] Hev; try done.
        exists x. split; [left|done].
      * eapply Forall_impl; [apply IH|]. intros [] Hev; try done.
        destruct Hev as (y & Hy & Hev). exists y. split; [by right|done].
    + eapply Forall_impl; [exact Hx|]. intros [] Hev; try done.
      exists x. split; [left|done].
Qed.

Lemma loop_result_acc xs acc :
  (exec (initialiseServices_loop (L':=unit) xs acc)).2 =
  result_map (app acc) (exec (initialiseServices_loop (L':=unit) xs [])).2.
Proof.
  revert acc. induction xs as [|x xs IH]; intros acc.
  - simpl. by rewrite app_nil_r.
  - rewrite !exec_loop_cons.
    destruct (exec (initialiseService (L':=unit) x)) as [w [tu|e]]; simpl; [|done].
    rewrite (IH (acc ++ [tu])), (IH [tu]).
    destruct (exec (initialiseServices_loop (L':=unit) xs [])).2; simpl; [|done].
    by rewrite <- app_assoc.
Qed.

Lemma loop_result_cons x xs :
  (exec (initialiseServices_loop (L':=unit) (x :: xs) [])).2 =
  match (exec (initialiseService (L':=unit) x)).2 with
  | Ok tuple => result_map (cons tuple) (exec (initialiseServices_loop (L':=unit) xs [])).2
  | Throw e => Throw e
  end.
Proof.
  rewrite exec_loop_cons.
  destruct (exec (initialiseService (L':=unit) x)) as [w [tu|e]]; simpl; [|done].
  by rewrite loop_result_acc.
Qed.

Lemma loop_result_app xs ys :
  (exec (initialiseServices_loop (L':=unit) (xs ++ ys) [])).2 =
  match (exec (initialiseServices_loop (L':=unit) xs [])).2 with
  | Ok tuples => result_map (app tuples) (exec (initialiseServices_loop (L':=unit) ys [])).2
  | Throw e => Throw e
  end.
Proof.
  induction xs as [|x xs IH].
  - simpl. by destruct (exec (initialiseServices_loop (L':=unit) ys [])).2.
  - rewrite <- app_comm_cons, !loop_result_cons, IH.
    destruct (exec (initialiseService (L':=unit) x)).2 as [tu|e]; [|done].
    destruct (exec (initialiseServices_loop (L':=unit) xs [])).2 as [ts|e]; simpl; [|done].
    by destruct (exec (initialiseServices_loop (L':=unit) ys [])).2.
Qed.

(** *** The worker side *)

Lemma framed_new F serviceConfig caps config :
  framed (new construct (L':=unit) F serviceConfig caps config).
Proof. unfold new. auto with framed. Qed.

Lemma framed_worker_callback config caps tuple :
  framed (worker_callback config caps tuple).
Proof.
  unfold Services.worker_callback.
  destruct (_ && _); [auto with framed|].
  apply framed_bind; [auto with framed|]. intros d.
  destruct (String.eqb _ _); [apply framed_new|auto with framed].
Qed.

#[local] Hint Resolve framed_new framed_worker_callback : framed.

Lemma framed_worker_try config caps workerServices :
  framed (worker_try config caps workerServices).
Proof. unfold Services.worker_try, Services.initialiseServices. auto 6 with framed. Qed.

#[local] Hint Resolve framed_worker_try : framed.

Lemma exec_worker_try config caps workerServices :
  exec (worker_try config caps workerServices) =
  match exec (initialiseServices (L':=unit) workerServices) with
  | (w, Ok tuples) =>
      (w ++ (exec (array_map tuples (worker_callback config caps))).1,
       result_map (List.filter truthy)
                  (exec (array_map tuples (worker_callback config caps))).2)
  | (w, Throw e) => (w, Throw e)
  end.
Proof.
  unfold Services.worker_try, Services.initialiseServices.
  rewrite exec_bind by auto 6 with framed.
  destruct (exec _) as [w [ts|e]]; [|done].
  rewrite exec_bind by auto with framed.
  destruct (exec _) as [w' [ins|e]]; simpl; [|done]. by rewrite app_nil_r.
Qed.

Lemma exec_initialiseWorkerService entries settings caps ignored :
  exec (initialiseWorkerService {| services := Some entries; settings := settings |}
                                caps ignored) =
  match exec (worker_try {| services := Some entries; settings := settings |} caps
                         (workerServices_of ignored entries)) with
  | (w, Ok instances) => (w, Ok instances)
  | (w, Throw e) => (w ++ [LogError e], Ok [])
  end.
Proof.
  unfold Services.initialiseWorkerService, config_services, log_error. simpl.
  rewrite exec_bind by auto 6 with framed.
  simpl. rewrite exec_try_catch by auto with framed.
  fold (workerServices_of ignored entries).
  by destruct (exec _) as [w [ins|e]].
Qed.

(** The callback only runs constructors: it never logs and never loads. *)
Lemma worker_callback_events config caps tuple :
  Forall (fun ev => match ev with Construct _ _ _ _ => True | _ => False end)
         (exec (worker_callback config caps tuple)).1.
Proof.
  unfold exec, Services.worker_callback.
  destruct (_ && _); [constructor|].
  unfold bind, lift. destruct (get _ _) as [d|e]; [|constructor].
  destruct (String.eqb _ _); [|constructor].
  unfold new, bind, emit, lift, ret.
  destruct (construct _ _ _ _); simpl; by repeat constructor.
Qed.

Lemma array_map_worker_events config caps tuples :
  Forall (fun ev => match ev with Construct _ _ _ _ => True | _ => False end)
         (exec (array_map tuples (worker_callback config caps))).1.
Proof.
  induction tuples as [|tu ts IH]; [constructor|].
  rewrite exec_array_map_cons by auto with framed.
  pose proof (worker_callback_events config caps tu) as Htu.
  destruct (exec (worker_callback config caps tu)) as [w [y|e]]; simpl in *; [|done].
  by apply Forall_app.
Qed.

Lemma array_map_result_app {A B} (xs ys : list A) (f : A -> M event unit B) :
  (forall x, framed (f x)) ->
  (exec (array_map (xs ++ ys) f)).2 =
  match (exec (array_map xs f)).2 with
  | Ok bs => result_map (app bs) (exec (array_map ys f)).2
  | Throw e => Throw e
  end.
Proof.
  intros Hf. induction xs as [|x xs IH].
  - simpl. by destruct (exec (array_map ys f)).2.
  - rewrite <- app_comm_cons, !exec_array_map_cons by done.
    destruct (exec (f x)) as [w [y|e]]; simpl; [|done].
    rewrite IH. destruct (exec (array_map xs f)).2 as [bs|e]; simpl; [|done].
    by destruct (exec (array_map ys f)).2.
Qed.

Lemma worker_callback_no_constructable config caps tuple :
  no_constructable_value tuple ->
  exec (worker_callback config caps tuple) = ([], Ok VUndefined).
Proof.
  intros (Hpre & d & Hd & Hdf & Hsf).
  unfold exec, Services.worker_callback. rewrite Hpre.
  unfold bind, lift. rewrite Hd. unfold or_else.
  destruct (truthy d).
  - destruct (String.eqb (typeof d) "function") eqn:H; [|done].
    by apply String.eqb_eq in H.
  - destruct (String.eqb (typeof (at_index tuple 0)) "function") eqn:H; [|done].
    by apply String.eqb_eq in H.
Qed.

Lemma worker_try_result config caps workerServices :
  (exec (worker_try config caps workerServices)).2 =
  match (exec (initialiseServices (L':=unit) workerServices)).2 with
  | Ok tuples =>
      result_map (List.filter truthy)
                 (exec (array_map tuples (worker_callback config caps))).2
  | Throw e => Throw e
  end.
Proof.
  rewrite exec_worker_try. by destruct (exec _) as [w [ts|e]].
Qed.

(** Dropping an entry that yields no constructable value from the list
    changes nothing in what the [try] block returns or throws. *)
Lemma worker_try_drop config caps pre x post tuple :
  (exec (initialiseService (L':=unit) x)).2 = Ok tuple ->
  no_constructable_value tuple ->
  (exec (worker_try config caps (pre ++ x :: post))).2 =
  (exec (worker_try config caps (pre ++ post))).2.
Proof.
  intros Hx Htu. rewrite !worker_try_result.
  unfold Services.initialiseServices.
  rewrite !loop_result_app, loop_result_cons, Hx.
  destruct (exec (initialiseServices_loop (L':=unit) pre [])).2 as [a|e]; [|done].
  destruct (exec (initialiseServices_loop (L':=unit) post [])).2 as [b|e]; simpl; [|done].
  rewrite !array_map_result_app by auto with framed.
  rewrite exec_array_map_cons by auto with framed.
  rewrite (worker_callback_no_constructable config caps tuple Htu).
  destruct (exec (array_map a (worker_callback config caps))).2 as [ia|e]; simpl; [|done].
  destruct (exec (array_map b (worker_callback config caps))).2 as [ib|e]; simpl; [|done].
  by rewrite !List.filter_app.
Qed.

Lemma workerServices_of_app ignored xs ys :
  workerServices_of ignored (xs ++ ys) =
  workerServices_of ignored xs ++ workerServices_of ignored ys.
Proof. unfold workerServices_of. by rewrite List.map_app, List.filter_app. Qed.

(** *** The launcher side *)

Lemma exec_initialiseLauncherService config caps :
  exec (initialiseLauncherService config caps) =
  match launcher_try config caps empty_result [] with
  | (r, t, Ok _) => (t, Ok r)
  | (r, t, Throw e) => (t ++ [LogError e], Ok r)
  end.
Proof.
  unfold exec, Services.initialiseLauncherService, scope, bind, try_catch, read,
    log_error, emit. fold empty_result.
  by destruct (launcher_try _ _ _ _) as [[l t] [[]|e]].
Qed.

Lemma launcher_try_unfold entries settings caps l :
  let config := {| services := Some entries; settings := settings |} in
  launcher_try config caps l [] =
  match exec (initialiseServices (L':=unit) (List.map sanitizeServiceArray entries)) with
  | (w, Ok tuples) => for_of tuples (launcher_iteration config caps) l w
  | (w, Throw e) => (l, w, Throw e)
  end.
Proof.
  intros config. unfold Services.launcher_try, config_services. simpl.
  unfold bind at 1. unfold ret at 1. unfold bind.
  unfold Services.initialiseServices. rewrite initialiseServices_loop_exec. simpl.
  by destruct (exec _) as [w [ts|e]].
Qed.

(** One iteration either leaves [ignoredWorkerServices] alone or appends
    the tuple's (truthy) source name; it never removes anything. *)
Lemma launcher_iteration_ignored config caps tuple l t l' t' r :
  launcher_iteration config caps tuple l t = (l', t', r) ->
  ignoredWorkerServices l' = ignoredWorkerServices l \/
  (ignoredWorkerServices l' = ignoredWorkerServices l ++ [at_index tuple 2] /\
   truthy (at_index tuple 2) = true).
Proof. unfold Services.launcher_iteration, new. intros H. run_cases. Qed.

(** An iteration that completes on a tuple with a truthy source name, whose
    module has no callable default export and is not callable, has pushed
    the name. *)
Lemma launcher_iteration_pushes config caps tuple l t l' t' d :
  launcher_iteration config caps tuple l t = (l', t', Ok tt) ->
  truthy (at_index tuple 2) = true ->
  get (at_index tuple 0) "default" = Ok d ->
  typeof d <> "function" -> typeof (at_index tuple 0) <> "function" ->
  at_index tuple 2 ∈ ignoredWorkerServices l'.
Proof.
  unfold Services.launcher_iteration, new. intros H Htr Hd Hdf Hsf.
  rewrite Htr, andb_false_r in H.
  apply String.eqb_neq in Hdf, Hsf.
  run_cases; rewrite ?Hdf, ?Hsf in *; simplify_eq/=; set_solver.
Qed.

Lemma for_of_ignored_origin config caps tuples : forall l t l' t' r,
  for_of tuples (launcher_iteration config caps) l t = (l', t', r) ->
  forall x, x ∈ ignoredWorkerServices l' ->
    x ∈ ignoredWorkerServices l \/
    exists tuple, tuple ∈ tuples /\ x = at_index tuple 2 /\ truthy x = true.
Proof.
  induction tuples as [|tu ts IH]; intros l t l' t' r H x Hx.
  - simpl in H. unfold ret in H. injection H as <- <- <-. by left.
  - simpl in H. apply bind_inv in H as [(l1 & t1 & [] & Htu & H)|(e & Htu & ->)].
    + destruct (IH _ _ _ _ _ H x Hx) as [Hx1|(tu' & Hin & Heq)].
      * apply launcher_iteration_ignored in Htu as [Heq|[Heq Htr]].
        -- left. by rewrite <- Heq.
        -- rewrite Heq in Hx1. apply elem_of_app in Hx1 as [Hx1|Hx1]; [by left|].
           apply list_elem_of_singleton in Hx1 as ->.
           right. exists tu. split; [left|done].
      * right. exists tu'. split; [by right|done].
    + apply launcher_iteration_ignored in Htu as [Heq|[Heq Htr]].
      * left. by rewrite <- Heq.
      * rewrite Heq in Hx. apply elem_of_app in Hx as [Hx|Hx]; [by left|].
        apply list_elem_of_singleton in Hx as ->.
        right. exists tu. split; [left|done].
Qed.

Lemma for_of_ignored_mono config caps tuples : forall l t l' t' r,
  for_of tuples (launcher_iteration config caps) l t = (l', t', r) ->
  forall x, x ∈ ignoredWorkerServices l -> x ∈ ignoredWorkerServices l'.
Proof.
  induction tuples as [|tu ts IH]; intros l t l' t' r H x Hx.
  - simpl in H. unfold ret in H. by injection H as <- <- <-.
  - simpl in H.
    assert (forall l1 t1 r1, launcher_iteration config caps tu l t = (l1, t1, r1) ->
                             x ∈ ignoredWorkerServices l1) as Hstep.
    { intros l1 t1 r1 Htu.
      apply launcher_iteration_ignored in Htu as [->|[-> _]]; set_solver. }
    apply bind_inv in H as [(l1 & t1 & [] & Htu & H)|(e & Htu & ->)]; eauto.
Qed.

Lemma for_of_pushes config caps tuples : forall l t l' t' tuple d,
  for_of tuples (launcher_iteration config caps) l t = (l', t', Ok tt) ->
  tuple ∈ tuples ->
  truthy (at_index tuple 2) = true ->
  get (at_index tuple 0) "default" = Ok d ->
  typeof d <> "function" -> typeof (at_index tuple 0) <> "function" ->
  at_index tuple 2 ∈ ignoredWorkerServices l'.
Proof.
  induction tuples as [|tu ts IH]; intros l t l' t' tuple d H Hin Htr Hd Hdf Hsf.
  - by apply elem_of_nil in Hin.
  - simpl in H. apply bind_inv in H as [(l1 & t1 & [] & Htu & H)|(e & Htu & [=])].
    apply elem_of_cons in Hin as [->|Hin].
    + eapply for_of_ignored_mono; [exact H|].
      by eapply launcher_iteration_pushes.
    + by eapply IH.
Qed.

(** Each tuple of a successful resolution is the resolution of the entry at
    the same position. *)
Lemma loop_result_Forall2 xs : forall tuples,
  (exec (initialiseServices_loop (L':=unit) xs [])).2 = Ok tuples ->
  Forall2 (fun x tuple => (exec (initialiseService (L':=unit) x)).2 = Ok tuple) xs tuples.
Proof.
  induction xs as [|x xs IH]; intros ts H.
  - simpl in H. injection H as <-. constructor.
  - rewrite loop_result_cons in H.
    destruct (exec (initialiseService (L':=unit) x)).2 as [tu|e] eqn:Hx; [|done].
    destruct (exec (initialiseServices_loop (L':=unit) xs [])).2 as [ts'|e]; [|done].
    simpl in H. injection H as <-. constructor; [done|]. by apply IH.
Qed.


(** The loader is asked only for the names of the worker's own (filtered)
    entries. *)
Lemma worker_loads_only_kept entries settings caps ignored name type :
  Load name type
    ∈ (exec (initialiseWorkerService {| services := Some entries; settings := settings |}
                                      caps ignored)).1 ->
  includes ignored name = false.
Proof.
  rewrite exec_initialiseWorkerService, exec_worker_try.
  set (config := {| services := Some entries; settings := settings |}).
  pose proof (loop_events (workerServices_of ignored entries) []) as Hres.
  fold (initialiseServices (L':=unit) (workerServices_of ignored entries)) in Hres.
  destruct (exec (initialiseServices (L':=unit) _)) as [w [ts|e]]; simpl in *.
  - pose proof (array_map_worker_events config caps ts) as Hmap.
    assert (Load name type ∈ w ++ (exec (array_map ts (worker_callback config caps))).1
            -> includes ignored name = false) as Hkey.
    { intros Hin. apply elem_of_app in Hin as [Hin|Hin].
      - rewrite Forall_forall in Hres. apply Hres in Hin as (x & Hx & -> & _).
        unfold workerServices_of in Hx. apply list_elem_of_In, List.filter_In in Hx as [_ Hx].
        by apply negb_true_iff in Hx.
      - rewrite Forall_forall in Hmap. by apply Hmap in Hin. }
    destruct (exec (array_map ts (worker_callback config caps))) as [w' [ins|e]]; simpl in *;
      [done|].
    intros Hin. apply elem_of_app in Hin as [Hin|Hin]; [by apply Hkey|].
    by apply list_elem_of_singleton in Hin.
  - intros Hin. apply elem_of_app in Hin as [Hin|Hin].
    + rewrite Forall_forall in Hres. apply Hres in Hin as (x & Hx & -> & _).
      unfold workerServices_of in Hx. apply list_elem_of_In, List.filter_In in Hx as [_ Hx].
      by apply negb_true_iff in Hx.
    + by apply list_elem_of_singleton in Hin.
Qed.

(** C10: on a well-typed service list, everything recorded in
    [ignoredWorkerServices] is a string that heads a named entry of the
    list; an entry given as a class or as an object is never recorded. *)
Theorem ignoredWorkerServices_are_named_entries entries settings caps t r :
  forallb is_service_entry entries = true ->
  exec (initialiseLauncherService {| services := Some entries; settings := settings |} caps)
    = (t, Ok r) ->
  (forall x, x ∈ ignoredWorkerServices r ->
     exists s entry,
       x = VString s /\ entry ∈ entries /\
       at_index (sanitizeServiceArray entry) 0 = VString s) /\
  (forall entry, entry ∈ entries ->
     typeof (at_index (sanitizeServiceArray entry) 0) = "object" \/
     typeof (at_index (sanitizeServiceArray entry) 0) = "function" ->
     at_index (sanitizeServiceArray entry) 0 ∉ ignoredWorkerServices r).
Proof.
  intros Htyped Hexec.
  assert (forall x, x ∈ ignoredWorkerServices r ->
     exists s entry,
       x = VString s /\ entry ∈ entries /\
       at_index (sanitizeServiceArray entry) 0 = VString s) as Hmain.
  { intros x Hx.
    rewrite exec_initialiseLauncherService, launcher_try_unfold in Hexec.
    destruct (exec (initialiseServices (L':=unit) _)) as [w [ts|e]] eqn:Hres.
    2:{ injection Hexec as _ <-. by apply elem_of_nil in Hx. }
    assert ((exec (initialiseServices (L':=unit)
                     (List.map sanitizeServiceArray entries))).2 = Ok ts) as Hts
      by by rewrite Hres.
    apply loop_result_Forall2 in Hts.
    destruct (for_of ts _ empty_result w) as [[l t'] res] eqn:Hfor.
    assert (r = l) as -> by (destruct res as [[]|]; by injection Hexec).
    destruct (for_of_ignored_origin _ _ _ _ _ _ _ _ Hfor x Hx) as [Hnil|(tu & Htu & -> & Htr)].
    { by apply elem_of_nil in Hnil. }
    apply list_elem_of_lookup in Htu as [i Hi].
    destruct (Forall2_lookup_r _ _ _ _ _ Hts Hi) as (sx & Hsx & Hx').
    change (List.map sanitizeServiceArray entries) with (sanitizeServiceArray <$> entries)
      in Hsx.
    rewrite list_lookup_fmap in Hsx.
    destruct (entries !! i) as [entry|] eqn:Hentry; [|done].
    simpl in Hsx. injection Hsx as <-.
    rewrite forallb_forall in Htyped.
    specialize (Htyped entry (proj1 (list_elem_of_In _ _) (list_elem_of_lookup_2 _ _ _ Hentry))).
    unfold is_service_entry in Htyped.
    rewrite initialiseService_result in Hx'. simpl in Hx'.
    destruct (at_index (sanitizeServiceArray entry) 0) as [| |b|n|s|items|props|name props]
      eqn:Hhead; simpl in *; try done; simplify_eq/=; try done.
    destruct (initialisePlugin _ _); simplify_eq/=.
    exists s, entry. split; [done|]. split; [|done].
    by eapply list_elem_of_lookup_2. }
  split; [exact Hmain|].
  intros entry Hentry Hty Hin.
  destruct (Hmain _ Hin) as (s & _ & Heq & _). rewrite Heq in Hty.
  by destruct Hty.
Qed.
End ServicesFacts.

(** *** Examples *)

(** A pre-built hook object and a package with a default-exported class:
    the worker gets the object unchanged and an instance of the class. *)
Example worker_object_and_package :
  (exec (Services.initialiseWorkerService example_loader example_construct (L:=unit)
           {| services := Some [VObject {[ "beforeTest" := VFunction "beforeTest" ∅ ]};
                                VString "devtools"];
              settings := VUndefined |}
           VUndefined [])).2
  = Ok [VObject {[ "beforeTest" := VFunction "beforeTest" ∅ ]};
        VObject {[ "instanceOf" := VString "DevToolsService" ]}].
Proof. vm_compute. reflexivity. Qed.

(** The same package on the launcher side: its launcher class is
    instantiated, and it is not recorded as ignorable since it has a
    default export; [plain] is recorded. *)
Example launcher_package_with_launcher :
  (exec (Services.initialiseLauncherService example_loader example_construct (L:=unit)
           {| services := Some [VString "devtools"; VString "plain"];
              settings := VUndefined |}
           VUndefined)).2
  = Ok {| ignoredWorkerServices := [VString "plain"];
          launcherServices := [VObject {[ "instanceOf" := VString "DevToolsLauncher" ]}] |}.
Proof. vm_compute. reflexivity. Qed.

(** Without a service list in the configuration the worker side throws:
    the list is read before the [try]. *)
Example worker_without_services_throws :
  exec (Services.initialiseWorkerService example_loader example_construct (L:=unit)
          {| services := None; settings := VUndefined |} VUndefined [])
  = ([], Throw (TypeError "Cannot read properties of undefined (reading 'map')")).
Proof. reflexivity. Qed.


(** C10, witness: a package name, a pre-built object and a class. *)
Lemma ignoredWorkerServices_are_named_entries_witness :
  exists t r,
    exec (Services.initialiseLauncherService example_loader example_construct (L:=unit)
            {| services := Some [VString "plain"; VObject ∅; VFunction "Service" ∅];
               settings := VUndefined |}
            VUndefined) = (t, Ok r) /\
    ignoredWorkerServices r = [VString "plain"] /\
    (forall x, x ∈ ignoredWorkerServices r ->
       exists s entry,
         x = VString s /\
         entry ∈ [VString "plain"; VObject ∅; VFunction "Service" ∅] /\
         at_index (sanitizeServiceArray entry) 0 = VString s) /\
    (forall entry, entry ∈ [VString "plain"; VObject ∅; VFunction "Service" ∅] ->
       typeof (at_index (sanitizeServiceArray entry) 0) = "object" \/
       typeof (at_index (sanitizeServiceArray entry) 0) = "function" ->
       at_index (sanitizeServiceArray entry) 0 ∉ ignoredWorkerServices r).
Proof.
  eexists _, _. split; [vm_compute; reflexivity|]. split; [reflexivity|].
  eapply (ignoredWorkerServices_are_named_entries example_loader example_construct
            [VString "plain"; VObject ∅; VFunction "Service" ∅] VUndefined VUndefined).
  - reflexivity.
  - vm_compute; reflexivity.
Defined.

(** * Service initialisation: further properties *)

Section ServicesMore.
Variable initialisePlugin : value -> string -> result value.
Variable construct : value -> value -> value -> Config -> result instance.

Local Abbreviation initialiseService := (@Services.initialiseService initialisePlugin).
Local Abbreviation initialiseServices_loop := (@Services.initialiseServices_loop initialisePlugin).
Local Abbreviation initialiseServices := (@Services.initialiseServices initialisePlugin).
Local Abbreviation launcher_iteration := (Services.launcher_iteration construct).
Local Abbreviation launcher_try := (Services.launcher_try initialisePlugin construct).
Local Abbreviation initialiseLauncherService :=
  (Services.initialiseLauncherService initialisePlugin construct (L:=unit)).
Local Abbreviation worker_callback := (Services.worker_callback construct (L:=unit)).
Local Abbreviation worker_try := (Services.worker_try initialisePlugin construct (L:=unit)).
Local Abbreviation initialiseWorkerService :=
  (Services.initialiseWorkerService initialisePlugin construct (L:=unit)).

#[local] Hint Resolve framed_initialiseService framed_initialiseServices_loop
  framed_new framed_worker_callback framed_worker_try : framed.

Lemma initialiseService_resolves_to entry tuple :
  (exec (initialiseService (L':=unit) entry)).2 = Ok tuple ->
  resolves_to initialisePlugin entry tuple.
Proof.
  rewrite initialiseService_result. unfold resolves_to, is_named. simpl.
  destruct (String.eqb (typeof (at_index entry 0)) "object") eqn:Ho.
  { intros [= <-]. left. by apply String.eqb_eq in Ho. }
  destruct (String.eqb (typeof (at_index entry 0)) "function") eqn:Hf.
  { intros [= <-]. right. left. by apply String.eqb_eq in Hf. }
  destruct (initialisePlugin _ _) as [m|e]; [|done].
  intros [= <-]. right. right. eauto.
Qed.

(** X1: a successful resolution yields one tuple per entry, in the order of
    the entries: the entry itself for an object (with empty options) or a
    function (with its options), the loaded module with options and name
    for a named entry. *)
Theorem initialiseServices_one_tuple_per_entry services t tuples :
  exec (initialiseServices (L':=unit) services) = (t, Ok tuples) ->
  length tuples = length services /\
  Forall2 (resolves_to initialisePlugin) services tuples.
Proof.
  intros H.
  assert ((exec (initialiseServices (L':=unit) services)).2 = Ok tuples) as Hr
    by by rewrite H.
  apply loop_result_Forall2 in Hr.
  split; [symmetry; by eapply Forall2_length|].
  eapply Forall2_impl; [exact Hr|]. intros x y. apply initialiseService_resolves_to.
Qed.

(** The loader requests of one entry. *)
Lemma initialiseService_loads entry :
  loads (exec (initialiseService (L':=unit) entry)).1 =
  if is_named entry then [(at_index entry 0, "service")] else [].
Proof.
  unfold exec, Services.initialiseService, is_named. simpl.
  destruct (String.eqb (typeof (at_index entry 0)) "object"); [done|].
  destruct (String.eqb (typeof (at_index entry 0)) "function"); simpl.
  { unfold bind, lift, log_debug, emit, ret. by destruct (get _ _). }
  unfold bind, call_initialisePlugin, bind, lift, log_debug, emit, ret.
  by destruct (initialisePlugin _ _).
Qed.

Lemma loads_app t1 t2 : loads (t1 ++ t2) = loads t1 ++ loads t2.
Proof. apply omap_app. Qed.

(** The events of the loop do not depend on what was accumulated. *)
Lemma loop_trace_acc xs : forall acc,
  (exec (initialiseServices_loop (L':=unit) xs acc)).1 =
  (exec (initialiseServices_loop (L':=unit) xs [])).1.
Proof.
  induction xs as [|x xs IH]; intros acc; [done|].
  rewrite !exec_loop_cons.
  destruct (exec (initialiseService (L':=unit) x)) as [w [tu|e]]; simpl; [|done].
  by rewrite (IH (acc ++ [tu])), (IH [tu]).
Qed.

Lemma initialiseServices_cons x xs :
  exec (initialiseServices (L':=unit) (x :: xs)) =
  match exec (initialiseService (L':=unit) x) with
  | (w, Ok tuple) =>
      (w ++ (exec (initialiseServices (L':=unit) xs)).1,
       result_map (cons tuple) (exec (initialiseServices (L':=unit) xs)).2)
  | (w, Throw e) => (w, Throw e)
  end.
Proof.
  unfold Services.initialiseServices. rewrite exec_loop_cons.
  destruct (exec (initialiseService (L':=unit) x)) as [w [tu|e]]; [|done].
  by rewrite loop_trace_acc, loop_result_acc.
Qed.

(** X2: in a successful resolution the plugin loader is asked exactly once
    for each named entry, in the order of the list and with type
    [service]; it is never asked for an object or a function entry. *)
Theorem initialiseServices_loads_named_entries services t tuples :
  exec (initialiseServices (L':=unit) services) = (t, Ok tuples) ->
  loads t = List.map (fun entry => (at_index entry 0, "service"))
                     (List.filter is_named services).
Proof.
  revert t tuples. induction services as [|x xs IH]; intros t tuples H.
  - by injection H as <- _.
  - rewrite initialiseServices_cons in H.
    pose proof (initialiseService_loads x) as Hx.
    destruct (exec (initialiseService (L':=unit) x)) as [w [tu|e]]; [|done].
    destruct (exec (initialiseServices (L':=unit) xs)) as [w' [ts|e]] eqn:Hxs; [|done].
    simpl in *. injection H as <- _.
    rewrite loads_app, Hx, (IH w' ts eq_refl).
    by destruct (is_named x).
Qed.

(** X3: resolution stops at the first entry that cannot be resolved: its
    error is what [initialiseServices] throws, and nothing after it is
    looked at (no log line, no request to the loader), whatever follows. *)
Theorem initialiseServices_stops_at_first_failure pre bad post t tuples w e :
  exec (initialiseServices (L':=unit) pre) = (t, Ok tuples) ->
  exec (initialiseService (L':=unit) bad) = (w, Throw e) ->
  exec (initialiseServices (L':=unit) (pre ++ bad :: post)) = (t ++ w, Throw e).
Proof.
  revert t tuples. induction pre as [|x xs IH]; intros t tuples Hpre Hbad.
  - injection Hpre as <- _. simpl. by rewrite initialiseServices_cons, Hbad.
  - rewrite initialiseServices_cons in Hpre.
    rewrite <- app_comm_cons, initialiseServices_cons.
    destruct (exec (initialiseService (L':=unit) x)) as [wx [tu|ex]]; [|done].
    destruct (exec (initialiseServices (L':=unit) xs)) as [w' [ts|e']] eqn:Hxs; [|done].
    simpl in Hpre. injection Hpre as <- _.
    rewrite (IH w' ts eq_refl Hbad). simpl. by rewrite app_assoc.
Qed.

(** X16: options are optional in two places with the same effect: a bare
    entry, the one-element array holding it, and the pair of it with
    undefined options all resolve alike (same events, same tuple, with
    empty options). *)
Theorem bare_entry_and_singleton_resolve_alike s :
  (forall items, s <> VArray items) ->
  exec (initialiseService (L':=unit) (sanitizeServiceArray (VArray [s])))
    = exec (initialiseService (L':=unit) (sanitizeServiceArray s)) /\
  exec (initialiseService (L':=unit) (sanitizeServiceArray (VArray [s; VUndefined])))
    = exec (initialiseService (L':=unit) (sanitizeServiceArray s)).
Proof.
  intros Hs.
  assert (sanitizeServiceArray s = [s; VObject ∅]) as ->.
  { destruct s; try done. by destruct (Hs items). }
  split; reflexivity.
Qed.

(** X4: a configuration without a service list. The worker side reads the
    list before its [try], so the [TypeError] escapes and nothing is
    logged; the launcher side reads it inside its [try], so the error is
    logged and two empty lists are returned. *)
Theorem missing_service_list_worker_throws_launcher_logs settings caps ignored :
  let config := {| services := None; settings := settings |} in
  exec (initialiseWorkerService config caps ignored)
    = ([], Throw (TypeError "Cannot read properties of undefined (reading 'map')")) /\
  exec (initialiseLauncherService config caps)
    = ([LogError (TypeError "Cannot read properties of undefined (reading 'map')")],
       Ok empty_result).
Proof. split; reflexivity. Qed.

(** *** Constructor calls *)

Lemma launcher_iteration_events config caps tuple l t l' t' r :
  launcher_iteration config caps tuple l t = (l', t', r) ->
  exists w, t' = t ++ w /\ Forall (sound_event config caps) w.
Proof.
  unfold Services.launcher_iteration, new. intros H.
  run_cases;
    first [ exists []; by rewrite app_nil_r
          | eexists [_]; split; [reflexivity|];
            repeat constructor;
            match goal with
            | Hf : String.eqb (typeof ?F) "function" = true |- typeof ?F = _ =>
                by apply String.eqb_eq in Hf
            end ].
Qed.

Lemma for_of_launcher_events config caps tuples : forall l t l' t' r,
  for_of tuples (launcher_iteration config caps) l t = (l', t', r) ->
  exists w, t' = t ++ w /\ Forall (sound_event config caps) w.
Proof.
  induction tuples as [|tu ts IH]; intros l t l' t' r H.
  - injection H as <- <- <-. exists []. by rewrite app_nil_r.
  - simpl in H. apply bind_inv in H as [(l1 & t1 & [] & Htu & H)|(e & Htu & ->)].
    + apply launcher_iteration_events in Htu as (w1 & -> & Hw1).
      apply IH in H as (w2 & -> & Hw2).
      exists (w1 ++ w2). split; [by rewrite app_assoc|by apply Forall_app].
    + by apply launcher_iteration_events in Htu.
Qed.

Lemma resolution_events_sound config caps xs acc :
  Forall (sound_event config caps) (exec (initialiseServices_loop (L':=unit) xs acc)).1.
Proof.
  eapply Forall_impl; [apply loop_events|]. by intros [].
Qed.

Lemma worker_callback_sound config caps tuple :
  Forall (sound_event config caps) (exec (worker_callback config caps tuple)).1.
Proof.
  unfold exec, Services.worker_callback.
  destruct (_ && _); [constructor|].
  unfold bind, lift. destruct (get _ _) as [d|e]; [|constructor].
  destruct (String.eqb _ _) eqn:Hf; [|constructor].
  apply String.eqb_eq in Hf.
  unfold new, bind, emit, lift, ret.
  destruct (construct _ _ _ _); simpl; by repeat constructor.
Qed.

Lemma array_map_worker_sound config caps tuples :
  Forall (sound_event config caps) (exec (array_map tuples (worker_callback config caps))).1.
Proof.
  induction tuples as [|tu ts IH]; [constructor|].
  rewrite exec_array_map_cons by auto with framed.
  pose proof (worker_callback_sound config caps tu) as Htu.
  destruct (exec (worker_callback config caps tu)) as [w [y|e]]; simpl in *; [|done].
  by apply Forall_app.
Qed.

(** X5: on either side, [new] is only ever applied to a function, and
    every constructor receives the capabilities and the configuration the
    caller passed in. *)
Theorem constructors_get_callers_caps_and_config entries settings caps ignored :
  let config := {| services := Some entries; settings := settings |} in
  Forall (sound_event config caps) (exec (initialiseLauncherService config caps)).1 /\
  Forall (sound_event config caps) (exec (initialiseWorkerService config caps ignored)).1.
Proof.
  intros config. split.
  - subst config. rewrite exec_initialiseLauncherService, launcher_try_unfold.
    set (config := {| services := Some entries; settings := settings |}).
    pose proof (resolution_events_sound config caps
                  (List.map sanitizeServiceArray entries) []) as Hres.
    fold (initialiseServices (L':=unit) (List.map sanitizeServiceArray entries)) in Hres.
    destruct (exec (initialiseServices (L':=unit) _)) as [w [ts|e]]; simpl in *.
    + destruct (for_of ts _ empty_result w) as [[l t'] res] eqn:Hfor.
      apply for_of_launcher_events in Hfor as (w2 & -> & Hw2).
      destruct res as [[]|e]; simpl; repeat (apply Forall_app; split); try done.
      by repeat constructor.
    + apply Forall_app. split; [done|]. by repeat constructor.
  - subst config. rewrite exec_initialiseWorkerService, exec_worker_try.
    set (config := {| services := Some entries; settings := settings |}).
    pose proof (resolution_events_sound config caps (workerServices_of ignored entries) [])
      as Hres.
    fold (initialiseServices (L':=unit) (workerServices_of ignored entries)) in Hres.
    destruct (exec (initialiseServices (L':=unit) _)) as [w [ts|e]]; simpl in *.
    + pose proof (array_map_worker_sound config caps ts) as Hmap.
      destruct (exec (array_map ts (worker_callback config caps))) as [w' [ins|e]]; simpl in *.
      * by apply Forall_app.
      * repeat (apply Forall_app; split); try done. by repeat constructor.
    + apply Forall_app. split; [done|]. by repeat constructor.
Qed.

(** *** What the worker returns *)

Lemma typeof_instance_value inst :
  typeof (instance_value inst) = "object" \/ typeof (instance_value inst) = "function".
Proof. destruct inst; simpl; auto. Qed.

(** The callback yields a pre-built object, the value of a [new]
    expression, or [undefined]. *)
Lemma worker_callback_value config caps tuple y :
  (exec (worker_callback config caps tuple)).2 = Ok y ->
  (typeof y = "object" \/ typeof y = "function") \/ y = VUndefined.
Proof.
  unfold exec, Services.worker_callback.
  destruct (String.eqb (typeof (at_index tuple 0)) "object") eqn:Ho; simpl.
  - destruct (negb _); simpl.
    { intros [= <-]. left. left. by apply String.eqb_eq in Ho. }
    unfold bind, lift, new, bind, emit, lift, ret. intros H.
    repeat (case_match; simplify_eq/=); eauto using typeof_instance_value.
  - unfold bind, lift, new, bind, emit, lift, ret. intros H.
    repeat (case_match; simplify_eq/=); eauto using typeof_instance_value.
Qed.

Lemma array_map_worker_values config caps tuples : forall instances,
  (exec (array_map tuples (worker_callback config caps))).2 = Ok instances ->
  Forall2 (fun tuple y => (exec (worker_callback config caps tuple)).2 = Ok y)
          tuples instances.
Proof.
  induction tuples as [|tu ts IH]; intros ins H.
  - injection H as <-. constructor.
  - rewrite exec_array_map_cons in H by auto with framed.
    destruct (exec (worker_callback config caps tu)) as [w [y|e]] eqn:Htu; [|done].
    destruct (exec (array_map ts (worker_callback config caps))).2 as [ys|e]; [|done].
    simpl in H. injection H as <-. constructor; [by rewrite Htu|by apply IH].
Qed.

(** X6: with a service list in the configuration, whatever the
    constructors return, every service the worker side returns is truthy
    and is an object or a function: [undefined] results and a [null] entry
    are filtered out, and no primitive can be produced. *)
Theorem worker_services_are_objects entries settings caps ignored :
  exists t instances,
    exec (initialiseWorkerService {| services := Some entries; settings := settings |}
                                  caps ignored) = (t, Ok instances) /\
    Forall (fun y => (typeof y = "object" \/ typeof y = "function") /\ truthy y = true)
           instances.
Proof.
  rewrite exec_initialiseWorkerService, exec_worker_try.
  set (config := {| services := Some entries; settings := settings |}).
  destruct (exec (initialiseServices (L':=unit) _)) as [w [ts|e]]; simpl.
  2:{ eexists _, _. split; [done|constructor]. }
  destruct (exec (array_map ts (worker_callback config caps))) as [w' [ins|e]] eqn:Hmap;
    simpl.
  2:{ eexists _, _. split; [done|constructor]. }
  eexists _, _. split; [done|].
  assert ((exec (array_map ts (worker_callback config caps))).2 = Ok ins) as Hins
    by by rewrite Hmap.
  apply array_map_worker_values in Hins.
  apply Forall_forall. intros y Hy.
  apply list_elem_of_In, List.filter_In in Hy as [Hy Htr].
  split; [|done].
  apply list_elem_of_In, list_elem_of_lookup in Hy as [i Hi].
  destruct (Forall2_lookup_r _ _ _ _ _ Hins Hi) as (tu & _ & Hcb).
  apply worker_callback_value in Hcb as [?| ->]; [done|discriminate].
Qed.

(** *** Pre-built objects *)

Lemma launcher_iteration_launcherServices config caps tuple l t l' t' r :
  launcher_iteration config caps tuple l t = (l', t', r) ->
  exists pushed, launcherServices l' = launcherServices l ++ pushed.
Proof.
  unfold Services.launcher_iteration, new. intros H.
  run_cases; first [ exists []; by rewrite app_nil_r | by eexists [_] ].
Qed.

Lemma for_of_launcherServices_mono config caps tuples : forall l t l' t' r,
  for_of tuples (launcher_iteration config caps) l t = (l', t', r) ->
  forall x, x ∈ launcherServices l -> x ∈ launcherServices l'.
Proof.
  induction tuples as [|tu ts IH]; intros l t l' t' r H x Hx.
  - by injection H as <- <- <-.
  - simpl in H. apply bind_inv in H as [(l1 & t1 & [] & Htu & H)|(e & Htu & ->)].
    + eapply IH; [exact H|].
      apply launcher_iteration_launcherServices in Htu as [p ->]. set_solver.
    + apply launcher_iteration_launcherServices in Htu as [p ->]. set_solver.
Qed.

Lemma for_of_passes_objects config caps tuples : forall l t l' t' tuple,
  for_of tuples (launcher_iteration config caps) l t = (l', t', Ok tt) ->
  tuple ∈ tuples ->
  typeof (at_index tuple 0) = "object" ->
  truthy (at_index tuple 2) = false ->
  at_index tuple 0 ∈ launcherServices l'.
Proof.
  induction tuples as [|tu ts IH]; intros l t l' t' tuple H Hin Ho Hn.
  - by apply elem_of_nil in Hin.
  - simpl in H. apply bind_inv in H as [(l1 & t1 & [] & Htu & H)|(e & Htu & [=])].
    apply elem_of_cons in Hin as [->|Hin]; [|by eapply IH].
    eapply for_of_launcherServices_mono; [exact H|].
    unfold Services.launcher_iteration in Htu. rewrite Ho, Hn in Htu. simpl in Htu.
    unfold modify in Htu. injection Htu as <- _. simpl. set_solver.
Qed.

(** An object entry resolves, without the loader, to itself with empty
    options. *)
Lemma object_entry_tuple entry tuple :
  typeof (at_index entry 0) = "object" ->
  (exec (initialiseService (L':=unit) entry)).2 = Ok tuple ->
  tuple = [at_index entry 0; VObject ∅].
Proof.
  intros Ho. rewrite initialiseService_result. simpl. rewrite Ho. simpl.
  by intros [= <-].
Qed.

Lemma object_entry_kept ignored entries entry :
  entry ∈ entries ->
  typeof (at_index (sanitizeServiceArray entry) 0) = "object" ->
  sanitizeServiceArray entry ∈ workerServices_of ignored entries.
Proof.
  intros Hin Ho. unfold workerServices_of.
  apply list_elem_of_In, List.filter_In. split.
  - apply List.in_map. by apply list_elem_of_In.
  - by destruct (at_index (sanitizeServiceArray entry) 0).
Qed.

(** X7: in a run that logs no error, a pre-built object given as a service
    entry is handed through unchanged: it is among the launcher services,
    and, if truthy, among the worker services, whatever the ignore list. *)
Theorem prebuilt_objects_pass_through entries settings caps ignored entry :
  let config := {| services := Some entries; settings := settings |} in
  let object := at_index (sanitizeServiceArray entry) 0 in
  entry ∈ entries ->
  typeof object = "object" ->
  (forall t r,
      exec (initialiseLauncherService config caps) = (t, Ok r) ->
      (forall e, LogError e ∉ t) ->
      object ∈ launcherServices r) /\
  (forall t instances,
      exec (initialiseWorkerService config caps ignored) = (t, Ok instances) ->
      (forall e, LogError e ∉ t) ->
      truthy object = true ->
      object ∈ instances).
Proof.
  intros config object Hentry Ho. split.
  - intros t r Hexec Hnoerr.
    subst config. rewrite exec_initialiseLauncherService, launcher_try_unfold in Hexec.
    destruct (exec (initialiseServices (L':=unit) _)) as [w [ts|e]] eqn:Hres.
    2:{ injection Hexec as <- _. exfalso. apply (Hnoerr e). set_solver. }
    destruct (for_of ts _ empty_result w) as [[l t'] [[]|e]] eqn:Hfor.
    2:{ injection Hexec as <- _. exfalso. apply (Hnoerr e). set_solver. }
    injection Hexec as <- <-.
    assert ((exec (initialiseServices (L':=unit)
                     (List.map sanitizeServiceArray entries))).2 = Ok ts) as Hts
      by by rewrite Hres.
    apply loop_result_Forall2 in Hts.
    assert (sanitizeServiceArray entry ∈ List.map sanitizeServiceArray entries) as Hin.
    { apply list_elem_of_In, List.in_map. by apply list_elem_of_In. }
    apply list_elem_of_lookup in Hin as [i Hi].
    destruct (Forall2_lookup_l _ _ _ _ _ Hts Hi) as (tu & Htu & Hx).
    apply (object_entry_tuple _ _ Ho) in Hx. subst tu.
    apply (for_of_passes_objects _ _ _ _ _ _ _ _ Hfor (list_elem_of_lookup_2 _ _ _ Htu));
      done.
  - intros t ins Hexec Hnoerr Htr.
    subst config. rewrite exec_initialiseWorkerService, exec_worker_try in Hexec.
    set (config := {| services := Some entries; settings := settings |}) in *.
    destruct (exec (initialiseServices (L':=unit) _)) as [w [ts|e]] eqn:Hres.
    2:{ injection Hexec as <- _. exfalso. apply (Hnoerr e). set_solver. }
    simpl in Hexec.
    destruct (exec (array_map ts (worker_callback config caps))) as [w' [ys|e]] eqn:Hmap.
    2:{ injection Hexec as <- _. exfalso. apply (Hnoerr e). set_solver. }
    simpl in Hexec. injection Hexec as _ <-.
    assert ((exec (initialiseServices (L':=unit)
                     (workerServices_of ignored entries))).2 = Ok ts) as Hts
      by by rewrite Hres.
    apply loop_result_Forall2 in Hts.
    pose proof (object_entry_kept ignored entries entry Hentry Ho) as Hin.
    apply list_elem_of_lookup in Hin as [i Hi].
    destruct (Forall2_lookup_l _ _ _ _ _ Hts Hi) as (tu & Htu & Hx).
    apply (object_entry_tuple _ _ Ho) in Hx. subst tu.
    assert ((exec (array_map ts (worker_callback config caps))).2 = Ok ys) as Hys
      by by rewrite Hmap.
    apply array_map_worker_values in Hys.
    destruct (Forall2_lookup_l _ _ _ _ _ Hys Htu) as (y & Hy & Hcb).
    unfold exec, Services.worker_callback in Hcb.
    change (at_index [at_index (sanitizeServiceArray entry) 0; VObject ∅] 0)
      with object in Hcb.
    rewrite Ho in Hcb. simpl in Hcb. injection Hcb as <-.
    apply list_elem_of_In, List.filter_In. split; [|done].
    apply list_elem_of_In. by eapply list_elem_of_lookup_2.
Qed.

(** *** The ignore list *)







End ServicesMore.

(** X1, witness: a package, a pre-built object and a class with options. *)
Lemma initialiseServices_one_tuple_per_entry_witness :
  let services :=
    [[VString "plain"; VObject ∅]; [VObject ∅; VObject ∅];
     [VFunction "Service" ∅; VObject {[ "port" := VNumber 1 ]}]] in
  exists t tuples,
    exec (Services.initialiseServices example_loader (L':=unit) services)
      = (t, Ok tuples) /\
    length tuples = length services /\
    Forall2 (resolves_to example_loader) services tuples.
Proof.
  intros services. eexists _, _. split; [vm_compute; reflexivity|].
  eapply (initialiseServices_one_tuple_per_entry example_loader).
  vm_compute; reflexivity.
Defined.

(** X2, witness: of two packages and an object, the two packages are
    loaded, in order. *)
Lemma initialiseServices_loads_named_entries_witness :
  exists t,
    (exec (Services.initialiseServices example_loader (L':=unit)
             [[VString "devtools"]; [VObject ∅]; [VString "plain"]])).1 = t /\
    loads t = [(VString "devtools", "service"); (VString "plain", "service")].
Proof.
  eexists. split; [vm_compute; reflexivity|].
  eapply (initialiseServices_loads_named_entries example_loader
            [[VString "devtools"]; [VObject ∅]; [VString "plain"]]).
  vm_compute; reflexivity.
Defined.

(** X3, witness: [missing] cannot be loaded, so [devtools] after it is
    never looked at. *)
Lemma initialiseServices_stops_at_first_failure_witness :
  exists t w e,
    exec (Services.initialiseServices example_loader (L':=unit) [[VString "plain"]])
      = (t, Ok [[VObject ∅; VObject ∅; VString "plain"]]) /\
    exec (Services.initialiseService example_loader (L':=unit) [VString "missing"])
      = (w, Throw e) /\
    exec (Services.initialiseServices example_loader (L':=unit)
            ([[VString "plain"]] ++ [VString "missing"] :: [[VString "devtools"]]))
      = (t ++ w, Throw e).
Proof.
  eexists _, _, _. split; [vm_compute; reflexivity|]. split; [vm_compute; reflexivity|].
  eapply (initialiseServices_stops_at_first_failure example_loader);
    vm_compute; reflexivity.
Defined.

(** X7, witness: a hook object next to the package [plain]. *)
Lemma prebuilt_objects_pass_through_witness :
  let hooks := VObject {[ "beforeTest" := VFunction "beforeTest" ∅ ]} in
  let config := {| services := Some [hooks; VString "plain"]; settings := VUndefined |} in
  (forall t r,
      exec (Services.initialiseLauncherService example_loader example_construct (L:=unit)
              config VUndefined) = (t, Ok r) ->
      (forall e, LogError e ∉ t) ->
      hooks ∈ launcherServices r) /\
  (forall t instances,
      exec (Services.initialiseWorkerService example_loader example_construct (L:=unit)
              config VUndefined ["plain"]) = (t, Ok instances) ->
      (forall e, LogError e ∉ t) ->
      truthy hooks = true ->
      hooks ∈ instances).
Proof.
  intros hooks config.
  apply (prebuilt_objects_pass_through example_loader example_construct
           [hooks; VString "plain"] VUndefined VUndefined ["plain"] hooks).
  - apply list_elem_of_here.
  - reflexivity.
Defined.


(** X16, witness: the package name [plain]. *)
Lemma bare_entry_and_singleton_resolve_alike_witness :
  exec (Services.initialiseService example_loader (L':=unit)
          (sanitizeServiceArray (VArray [VString "plain"])))
    = exec (Services.initialiseService example_loader (L':=unit)
              (sanitizeServiceArray (VString "plain"))) /\
  exec (Services.initialiseService example_loader (L':=unit)
          (sanitizeServiceArray (VArray [VString "plain"; VUndefined])))
    = exec (Services.initialiseService example_loader (L':=unit)
              (sanitizeServiceArray (VString "plain"))).
Proof.
  apply (bare_entry_and_singleton_resolve_alike example_loader (VString "plain")).
  intros items. discriminate.
Defined.

(** * Service initialisation: what an exception does *)

Section ServicesFailure.
Variable initialisePlugin : value -> string -> result value.
Variable construct : value -> value -> value -> Config -> result instance.

Local Abbreviation initialiseService := (@Services.initialiseService initialisePlugin).
Local Abbreviation initialiseServices_loop := (@Services.initialiseServices_loop initialisePlugin).
Local Abbreviation initialiseServices := (@Services.initialiseServices initialisePlugin).
Local Abbreviation launcher_iteration := (Services.launcher_iteration construct).
Local Abbreviation launcher_try := (Services.launcher_try initialisePlugin construct).
Local Abbreviation initialiseLauncherService :=
  (Services.initialiseLauncherService initialisePlugin construct (L:=unit)).
Local Abbreviation worker_callback := (Services.worker_callback construct (L:=unit)).
Local Abbreviation worker_try := (Services.worker_try initialisePlugin construct (L:=unit)).
Local Abbreviation initialiseWorkerService :=
  (Services.initialiseWorkerService initialisePlugin construct (L:=unit)).

#[local] Hint Resolve framed_initialiseService framed_initialiseServices_loop
  framed_new framed_worker_callback framed_worker_try : framed.

(** *** Resolution, from the entries *)

(** [resolves_to] determines what resolution returns. *)
Lemma resolves_to_result entry tuple :
  resolves_to initialisePlugin entry tuple ->
  (exec (initialiseService (L':=unit) entry)).2 = Ok tuple.
Proof.
  rewrite initialiseService_result. unfold resolves_to, is_named. simpl.
  intros [[Ho ->]|[[Hf ->]|(Hn & m & Hm & ->)]].
  - by rewrite Ho.
  - rewrite Hf. simpl. done.
  - apply andb_true_iff in Hn as [Ho Hf].
    apply negb_true_iff in Ho, Hf. by rewrite Ho, Hf, Hm.
Qed.

Lemma Forall2_resolves_to_result xs : forall tuples,
  Forall2 (resolves_to initialisePlugin) xs tuples ->
  (exec (initialiseServices (L':=unit) xs)).2 = Ok tuples.
Proof.
  unfold Services.initialiseServices.
  induction xs as [|x xs IH]; intros tuples H.
  - by apply Forall2_nil_inv_l in H as ->.
  - apply Forall2_cons_inv_l in H as (tu & ts & Hx & Hxs & ->).
    rewrite loop_result_cons, (resolves_to_result _ _ Hx), (IH _ Hxs). done.
Qed.

(** A named entry the loader throws on makes the resolution of any list it
    is in throw. *)
Lemma unresolvable_entry_throws xs entry e :
  entry ∈ xs -> is_named entry = true ->
  initialisePlugin (at_index entry 0) "service" = Throw e ->
  exists e', (exec (initialiseServices (L':=unit) xs)).2 = Throw e'.
Proof.
  unfold Services.initialiseServices. intros Hin Hn He.
  induction xs as [|x xs IH]; [by apply elem_of_nil in Hin|].
  rewrite loop_result_cons.
  destruct (exec (initialiseService (L':=unit) x)).2 as [tu|e0] eqn:Hx; [|eauto].
  apply elem_of_cons in Hin as [<-|Hin].
  - rewrite initialiseService_result in Hx.
    unfold is_named in Hn. apply andb_true_iff in Hn as [Ho Hf].
    apply negb_true_iff in Ho, Hf. simpl in Hx. by rewrite Ho, Hf, He in Hx.
  - destruct (IH Hin) as [e' ->]. eauto.
Qed.

(** *** The launcher's loop *)

Lemma get_total_when_readable v k k' x :
  get v k = Ok x -> exists y, get v k' = Ok y.
Proof. destruct v; simpl; intros H; try discriminate; eauto. Qed.

(** [launcher_body_safe] is exactly the condition under which the body of
    the loop completes, whatever was accumulated before. *)
Lemma launcher_body_safe_completes config caps tuple l t :
  launcher_body_safe construct config caps tuple ->
  exists l' t', launcher_iteration config caps tuple l t = (l', t', Ok tt).
Proof.
  unfold launcher_body_safe, Services.launcher_iteration.
  intros [[Ho Hn]|(la & Hla & Hnew)].
  - rewrite Ho, Hn. simpl. unfold modify. eauto.
  - destruct (_ && _); [unfold modify; eauto|].
    destruct (get_total_when_readable _ _ "default" _ Hla) as [d Hd].
    unfold bind at 1. unfold lift at 1. rewrite Hla.
    unfold bind at 1.
    destruct (String.eqb (typeof (or_else la (at_index tuple 0))) "function") eqn:Hf.
    + apply String.eqb_eq in Hf. destruct (Hnew Hf) as [inst Hinst].
      unfold new, bind, emit, lift, ret, modify. rewrite Hinst, Hd.
      repeat case_match; eauto.
    + unfold bind, lift, ret, modify. rewrite Hd.
      repeat case_match; eauto.
Qed.

Lemma launcher_completes_body_safe config caps tuple l t l' t' :
  launcher_iteration config caps tuple l t = (l', t', Ok tt) ->
  launcher_body_safe construct config caps tuple.
Proof.
  unfold launcher_body_safe, Services.launcher_iteration.
  destruct (String.eqb (typeof (at_index tuple 0)) "object") eqn:Ho;
    destruct (truthy (at_index tuple 2)) eqn:Hn; simpl;
    try (apply String.eqb_eq in Ho; by left).
  all: intros H; right.
  all: unfold bind at 1 in H; unfold lift at 1 in H.
  all: destruct (get (at_index tuple 0) "launcher") as [la|e]; [|done].
  all: exists la; split; [done|]; intros Hf.
  all: apply String.eqb_eq in Hf; rewrite Hf in H.
  all: unfold new, bind, emit, lift in H.
  all: destruct (construct _ _ _ _) as [inst|e]; [eauto|done].
Qed.

Lemma for_of_app {E L A} (xs ys : list A) (body : A -> M E L unit) l t :
  for_of (xs ++ ys) body l t =
  match for_of xs body l t with
  | (l1, t1, Ok _) => for_of ys body l1 t1
  | (l1, t1, Throw e) => (l1, t1, Throw e)
  end.
Proof.
  revert l t. induction xs as [|x xs IH]; intros l t; [done|].
  simpl. unfold bind.
  destruct (body x l t) as [[l1 t1] [[]|e]]; [apply IH|done].
Qed.

Lemma for_of_safe config caps tuples : forall l t,
  Forall (launcher_body_safe construct config caps) tuples ->
  exists l' t', for_of tuples (launcher_iteration config caps) l t = (l', t', Ok tt).
Proof.
  induction tuples as [|tu ts IH]; intros l t H.
  - simpl. unfold ret. eauto.
  - apply Forall_cons in H as [Htu Hts].
    destruct (launcher_body_safe_completes config caps tu l t Htu) as (l1 & t1 & H1).
    destruct (IH l1 t1 Hts) as (l2 & t2 & H2).
    exists l2, t2. simpl. unfold bind. by rewrite H1.
Qed.

(** C5 (as amended): a named entry with a non-empty identifier whose module
    has no callable default export and is not callable is recorded in
    [ignoredWorkerServices] when every entry of the list resolves and the
    body of the launcher's loop raises no exception on the entries up to
    and including this one, whatever happens on the entries after it; and
    a worker given that identifier in its ignore list never asks the
    plugin loader for it. *)
Theorem ignored_service_not_loaded_in_worker
    pre entry post settings caps s module default_export tuples :
  let entries := pre ++ entry :: post in
  let config := {| services := Some entries; settings := settings |} in
  at_index (sanitizeServiceArray entry) 0 = VString s ->
  s <> EmptyString ->
  initialisePlugin (VString s) "service" = Ok module ->
  get module "default" = Ok default_export ->
  typeof default_export <> "function" ->
  typeof module <> "function" ->
  Forall2 (resolves_to initialisePlugin) (List.map sanitizeServiceArray entries) tuples ->
  Forall (launcher_body_safe construct config caps) (take (S (length pre)) tuples) ->
  (exists t r,
      exec (initialiseLauncherService config caps) = (t, Ok r) /\
      VString s ∈ ignoredWorkerServices r) /\
  (forall caps' ignored type,
      s ∈ ignored ->
      Load (VString s) type ∉ (exec (initialiseWorkerService config caps' ignored)).1).
Proof.
  intros entries config Hname Hs Hmod Hd Hdf Hmf Hres Hsafe. split.
  - pose proof (Forall2_resolves_to_result _ _ Hres) as Hexec.
    subst config. rewrite exec_initialiseLauncherService, launcher_try_unfold.
    set (config := {| services := Some entries; settings := settings |}) in *.
    destruct (exec (initialiseServices (L':=unit) _)) as [w r0]. simpl in Hexec. subst r0.
    subst entries. rewrite List.map_app in Hres. simpl in Hres.
    apply Forall2_app_inv_l in Hres as (tpre & trest & Hpre & Hrest & ->).
    apply Forall2_cons_inv_l in Hrest as (tu & tpost & Htu & Hpost & ->).
    assert (length tpre = length pre) as Hlen.
    { apply Forall2_length in Hpre. by rewrite length_map in Hpre. }
    assert (tu = [module; with_default (at_index (sanitizeServiceArray entry) 1) (VObject ∅);
                  VString s]) as ->.
    { unfold resolves_to, is_named in Htu. rewrite Hname in Htu. simpl in Htu.
      destruct Htu as [[? _]|[[? _]|(_ & m & Hm & ->)]]; [done|done|].
      rewrite Hmod in Hm. by injection Hm as <-. }
    set (tu := [module; _; VString s]) in *.
    replace (tpre ++ tu :: tpost) with ((tpre ++ [tu]) ++ tpost) in *
      by by rewrite <- app_assoc.
    rewrite <- Hlen in Hsafe.
    replace (S (length tpre)) with (length (tpre ++ [tu])) in Hsafe
      by (rewrite length_app; simpl; lia).
    rewrite take_app_length in Hsafe.
    destruct (for_of_safe config caps _ empty_result w Hsafe) as (l1 & t1 & H1).
    assert (VString s ∈ ignoredWorkerServices l1) as Hin.
    { apply (for_of_pushes initialisePlugin construct config caps _ _ _ _ _
                 tu default_export H1); [|simpl|done..].
      - set_solver.
      - destruct (String.eqb s EmptyString) eqn:Heq; [|done].
        by apply String.eqb_eq in Heq. }
    rewrite for_of_app, H1.
    destruct (for_of tpost _ l1 t1) as [[l2 t2] [[]|e]] eqn:H2.
    + eexists _, _. split; [done|]. by eapply for_of_ignored_mono.
    + eexists _, _. split; [done|]. by eapply for_of_ignored_mono.
  - intros caps' ignored type Hin Hload.
    apply worker_loads_only_kept in Hload. simpl in Hload.
    by rewrite bool_decide_eq_false in Hload.
Qed.

(** *** The worker's callback *)

Lemma worker_body_throws_exec config caps tuple e :
  worker_body_throws construct config caps tuple e ->
  exists w, exec (worker_callback config caps tuple) = (w, Throw e).
Proof.
  unfold worker_body_throws, exec, Services.worker_callback.
  intros [Hpre [Hd|(d & Hd & Hf & Hnew)]].
  all: destruct (String.eqb (typeof (at_index tuple 0)) "object") eqn:Ho;
    destruct (truthy (at_index tuple 2)) eqn:Hn; simpl;
    try (apply String.eqb_eq in Ho; by destruct Hpre).
  all: unfold bind at 1; unfold lift at 1; rewrite Hd; eauto.
  all: apply String.eqb_eq in Hf; rewrite Hf.
  all: unfold new, bind, emit, lift; rewrite Hnew; eauto.
Qed.

Lemma array_map_throws config caps tuples tuple e :
  tuple ∈ tuples ->
  (exec (worker_callback config caps tuple)).2 = Throw e ->
  exists e', (exec (array_map tuples (worker_callback config caps))).2 = Throw e'.
Proof.
  intros Hin He. induction tuples as [|tu ts IH]; [by apply elem_of_nil in Hin|].
  rewrite exec_array_map_cons by auto with framed.
  destruct (exec (worker_callback config caps tu)) as [w [y|e0]] eqn:Htu; [|eauto].
  apply elem_of_cons in Hin as [<-|Hin].
  - rewrite Htu in He. discriminate.
  - destruct (IH Hin) as [e' ->]. simpl. eauto.
Qed.

(** The two readings of an entry with nothing to construct differ by the
    modules that are [null] or [undefined]. *)
Lemma nothing_callable_readable tuple :
  nothing_callable tuple ->
  at_index tuple 0 <> VNull -> at_index tuple 0 <> VUndefined ->
  no_constructable_value tuple.
Proof.
  unfold nothing_callable, no_constructable_value.
  intros (Hpre & Hsf & Hd) Hnull Hundef. split.
  - destruct (String.eqb (typeof (at_index tuple 0)) "object") eqn:Ho;
      destruct (truthy (at_index tuple 2)) eqn:Hn; simpl; try done.
    apply String.eqb_eq in Ho. by destruct Hpre.
  - destruct (get (at_index tuple 0) "default") as [d|e] eqn:Hget.
    + exists d. auto.
    + by destruct (at_index tuple 0).
Qed.

Lemma nothing_callable_unreadable config caps tuple :
  nothing_callable tuple ->
  at_index tuple 0 = VNull \/ at_index tuple 0 = VUndefined ->
  exists msg,
    exec (worker_callback config caps tuple) = ([], Throw (TypeError msg)) /\
    worker_body_throws construct config caps tuple (TypeError msg).
Proof.
  unfold nothing_callable, worker_body_throws, exec, Services.worker_callback.
  intros (Hpre & _ & _) [H|H]; rewrite H in *; simpl in *.
  - destruct (truthy (at_index tuple 2)) eqn:Hn; [|by destruct Hpre].
    simpl. unfold bind, lift. simpl. eauto.
  - unfold bind, lift. simpl. eauto.
Qed.

(** C6 (as amended): with a service list in the configuration,
    [initialiseWorkerService] never throws. An exception raised in its
    [try] block is logged and the empty sequence is returned; this is what
    happens when the plugin loader throws for an entry that was not
    filtered out, and when the callback throws on a resolved tuple, be it
    that a constructor throws or that the module is [null] or
    [undefined]. A resolved entry with nothing to construct whose module is
    neither [null] nor [undefined] makes the callback return [undefined]
    without any event, and the returned sequence is the one obtained
    without that entry; when its module is [null] or [undefined], reading
    its default export raises a [TypeError]. *)
Theorem initialiseWorkerService_tolerates_failure entries settings caps ignored :
  let config := {| services := Some entries; settings := settings |} in
  let kept := workerServices_of ignored entries in
  (exists t instances,
      exec (initialiseWorkerService config caps ignored) = (t, Ok instances)) /\
  (forall t e,
      exec (worker_try config caps kept) = (t, Throw e) ->
      exec (initialiseWorkerService config caps ignored) = (t ++ [LogError e], Ok [])) /\
  (forall entry e,
      entry ∈ kept -> is_named entry = true ->
      initialisePlugin (at_index entry 0) "service" = Throw e ->
      exists t e',
        exec (initialiseWorkerService config caps ignored) = (t ++ [LogError e'], Ok [])) /\
  (forall tuples tuple e,
      Forall2 (resolves_to initialisePlugin) kept tuples ->
      tuple ∈ tuples ->
      worker_body_throws construct config caps tuple e ->
      exists t e',
        exec (initialiseWorkerService config caps ignored) = (t ++ [LogError e'], Ok [])) /\
  (forall pre entry post tuple,
      entries = pre ++ entry :: post ->
      resolves_to initialisePlugin (sanitizeServiceArray entry) tuple ->
      nothing_callable tuple ->
      at_index tuple 0 <> VNull -> at_index tuple 0 <> VUndefined ->
      exec (worker_callback config caps tuple) = ([], Ok VUndefined) /\
      (exec (initialiseWorkerService config caps ignored)).2 =
      Ok (match (exec (worker_try config caps (workerServices_of ignored (pre ++ post)))).2
          with Ok instances => instances | Throw _ => [] end)) /\
  (forall tuples tuple,
      Forall2 (resolves_to initialisePlugin) kept tuples ->
      tuple ∈ tuples ->
      nothing_callable tuple ->
      at_index tuple 0 = VNull \/ at_index tuple 0 = VUndefined ->
      (exists msg,
          exec (worker_callback config caps tuple) = ([], Throw (TypeError msg))) /\
      (exists t e',
          exec (initialiseWorkerService config caps ignored)
          = (t ++ [LogError e'], Ok []))).
Proof.
  intros config kept. split; [|split; [|split; [|split; [|split]]]].
  - subst config. rewrite exec_initialiseWorkerService.
    destruct (exec _) as [w [ins|e]]; eauto.
  - intros t e H. subst config kept. by rewrite exec_initialiseWorkerService, H.
  - intros entry e Hin Hn He.
    destruct (unresolvable_entry_throws kept entry e Hin Hn He) as [e' He'].
    exists (exec (worker_try config caps kept)).1, e'.
    subst config kept. rewrite exec_initialiseWorkerService.
    rewrite exec_worker_try in *.
    by destruct (exec (initialiseServices (L':=unit) _)) as [w [ts|e0]]; simplify_eq/=.
  - intros tuples tuple e Hres Hin Hthrows.
    apply Forall2_resolves_to_result in Hres.
    destruct (worker_body_throws_exec config caps tuple e Hthrows) as [w0 Hcb].
    destruct (array_map_throws config caps tuples tuple e Hin) as [e' He'];
      [by rewrite Hcb|].
    exists (exec (worker_try config caps kept)).1, e'.
    subst config kept. rewrite exec_initialiseWorkerService.
    rewrite exec_worker_try in *.
    destruct (exec (initialiseServices (L':=unit) _)) as [w [ts|e0]]; simplify_eq/=.
    by rewrite He'.
  - intros pre entry post tuple Hentries Hres Hno Hnull Hundef.
    apply resolves_to_result in Hres.
    pose proof (nothing_callable_readable tuple Hno Hnull Hundef) as Hnc.
    split.
    { by apply worker_callback_no_constructable. }
    subst config kept entries. rewrite exec_initialiseWorkerService.
    set (config := {| services := Some (pre ++ entry :: post); settings := settings |}).
    assert ((exec (worker_try config caps
                     (workerServices_of ignored (pre ++ entry :: post)))).2
            = (exec (worker_try config caps (workerServices_of ignored (pre ++ post)))).2)
      as Heq.
    { rewrite !workerServices_of_app.
      change (entry :: post) with ([entry] ++ post).
      rewrite workerServices_of_app. unfold workerServices_of at 2. simpl.
      destruct (negb (includes ignored _)); simpl; [|done].
      by eapply worker_try_drop. }
    destruct (exec (worker_try config caps (workerServices_of _ (pre ++ entry :: post))))
      as [w [ins|e]]; simpl in *; by rewrite <- Heq.
  - intros tuples tuple Hres Hin Hno Hnull.
    destruct (nothing_callable_unreadable config caps tuple Hno Hnull) as (msg & Hcb & Hw).
    split; [eauto|].
    apply Forall2_resolves_to_result in Hres.
    destruct (array_map_throws config caps tuples tuple (TypeError msg) Hin) as [e' He'];
      [by rewrite Hcb|].
    exists (exec (worker_try config caps kept)).1, e'.
    subst config kept. rewrite exec_initialiseWorkerService.
    rewrite exec_worker_try in *.
    destruct (exec (initialiseServices (L':=unit) _)) as [w [ts|e0]]; simplify_eq/=.
    by rewrite He'.
Qed.
End ServicesFailure.

(** C5, counterexample: four lists with a named entry whose module has no
    callable default export and is not callable, and which is not
    recorded. In the first a later entry cannot be resolved; in the second
    the constructor of an earlier entry throws; in the third the launcher
    class of the module itself throws; in the fourth the name is the empty
    string, which the loop takes for an absent name. *)
Lemma qualifying_entry_not_recorded :
  (exists t r,
      edge_loader (VString "plain") "service" = Ok (VObject ∅) /\
      no_worker_export (VObject ∅) /\
      exec (Services.initialiseLauncherService edge_loader example_construct (L:=unit)
              {| services := Some [VString "plain"; VString "missing"];
                 settings := VUndefined |}
              VUndefined) = (t, Ok r) /\
      VString "plain" ∉ ignoredWorkerServices r) /\
  (exists t r,
      exec (Services.initialiseLauncherService edge_loader example_construct (L:=unit)
              {| services := Some [VFunction "Broken" ∅; VString "plain"];
                 settings := VUndefined |}
              VUndefined) = (t, Ok r) /\
      VString "plain" ∉ ignoredWorkerServices r) /\
  (exists t r,
      edge_loader (VString "half") "service"
        = Ok (VObject {[ "launcher" := VFunction "Broken" ∅ ]}) /\
      no_worker_export (VObject {[ "launcher" := VFunction "Broken" ∅ ]}) /\
      exec (Services.initialiseLauncherService edge_loader example_construct (L:=unit)
              {| services := Some [VString "half"]; settings := VUndefined |}
              VUndefined) = (t, Ok r) /\
      VString "half" ∉ ignoredWorkerServices r) /\
  (exists t r,
      edge_loader (VString EmptyString) "service" = Ok (VObject ∅) /\
      exec (Services.initialiseLauncherService edge_loader example_construct (L:=unit)
              {| services := Some [VString EmptyString]; settings := VUndefined |}
              VUndefined) = (t, Ok r) /\
      (VString EmptyString ∉ ignoredWorkerServices r) /\
      launcherServices r = [VObject ∅]).
Proof.
  assert (no_worker_export (VObject ∅)) as Hplain.
  { exists VUndefined. by repeat split. }
  assert (no_worker_export (VObject {[ "launcher" := VFunction "Broken" ∅ ]})) as Hhalf.
  { exists VUndefined. by repeat split. }
  split; [|split; [|split]].
  - eexists _, _. split; [reflexivity|]. split; [exact Hplain|].
    split; [vm_compute; reflexivity|]. apply not_elem_of_nil.
  - eexists _, _. split; [vm_compute; reflexivity|]. apply not_elem_of_nil.
  - eexists _, _. split; [reflexivity|]. split; [exact Hhalf|].
    split; [vm_compute; reflexivity|]. apply not_elem_of_nil.
  - eexists _, _. split; [reflexivity|].
    split; [vm_compute; reflexivity|]. split; [apply not_elem_of_nil|reflexivity].
Qed.

(** C5, witness: [plain] followed by a class whose constructor throws; the
    exception is raised after [plain] was recorded. *)
Lemma ignored_service_not_loaded_in_worker_witness :
  (exists t r,
      exec (Services.initialiseLauncherService example_loader example_construct (L:=unit)
              {| services := Some ([] ++ VString "plain" :: [VFunction "Broken" ∅]);
                 settings := VUndefined |}
              VUndefined) = (t, Ok r) /\
      VString "plain" ∈ ignoredWorkerServices r) /\
  (forall caps' ignored type,
      "plain" ∈ ignored ->
      Load (VString "plain") type ∉
        (exec (Services.initialiseWorkerService example_loader example_construct (L:=unit)
           {| services := Some ([] ++ VString "plain" :: [VFunction "Broken" ∅]);
              settings := VUndefined |} caps' ignored)).1).
Proof.
  apply (ignored_service_not_loaded_in_worker example_loader example_construct
           [] (VString "plain") [VFunction "Broken" ∅] VUndefined VUndefined
           "plain" (VObject ∅) VUndefined
           [[VObject ∅; VObject ∅; VString "plain"]; [VFunction "Broken" ∅; VObject ∅]]).
  - reflexivity.
  - discriminate.
  - reflexivity.
  - reflexivity.
  - discriminate.
  - discriminate.
  - constructor; [|constructor; [|constructor]].
    + right. right. split; [reflexivity|]. exists (VObject ∅). split; reflexivity.
    + right. left. split; reflexivity.
  - constructor; [|constructor].
    right. exists VUndefined. split; [reflexivity|]. discriminate.
Defined.

(** What the launcher returns on the list of the witness: the error of the
    class is logged and [plain] is recorded all the same. *)
Example later_failure_keeps_ignored :
  exec (Services.initialiseLauncherService example_loader example_construct (L:=unit)
          {| services := Some [VString "plain"; VFunction "Broken" ∅];
             settings := VUndefined |}
          VUndefined)
  = ([LogDebug ("initialise service " +:+ dquote +:+ "plain" +:+ dquote +:+ " as NPM package");
      Load (VString "plain") "service";
      LogDebug ("initialise custom service " +:+ dquote +:+ "Broken" +:+ dquote);
      Construct (VFunction "Broken" ∅) (VObject ∅) VUndefined
        {| services := Some [VString "plain"; VFunction "Broken" ∅];
           settings := VUndefined |};
      LogError (Thrown (VString "boom"))],
     Ok {| ignoredWorkerServices := [VString "plain"]; launcherServices := [] |}).
Proof. reflexivity. Qed.

(** C6, counterexample: the package [ghost] loads as [null]. Its tuple is
    not a pre-built object, has no callable default export and is not
    callable; yet with it in the list the worker logs a [TypeError] and
    returns nothing, the pre-built object before it included, while
    without it the object is returned. *)
Lemma null_module_empties_worker_services :
  exists t,
    resolves_to edge_loader (sanitizeServiceArray (VString "ghost"))
                [VNull; VObject ∅; VString "ghost"] /\
    nothing_callable [VNull; VObject ∅; VString "ghost"] /\
    exec (Services.initialiseWorkerService edge_loader example_construct (L:=unit)
            {| services := Some [VObject {[ "before" := VFunction "before" ∅ ]};
                                 VString "ghost"];
               settings := VUndefined |}
            VUndefined []) = (t, Ok []) /\
    LogError (TypeError "Cannot read properties of null (reading 'default')") ∈ t /\
    (exec (Services.initialiseWorkerService edge_loader example_construct (L:=unit)
             {| services := Some [VObject {[ "before" := VFunction "before" ∅ ]}];
                settings := VUndefined |}
             VUndefined [])).2
    = Ok [VObject {[ "before" := VFunction "before" ∅ ]}].
Proof.
  eexists.
  split.
  { right. right. split; [reflexivity|]. exists VNull. by split. }
  split.
  { split; [|split].
    - intros [_ H]. discriminate.
    - discriminate.
    - intros d H. discriminate. }
  split; [vm_compute; reflexivity|].
  split; [|vm_compute; reflexivity].
  set_solver.
Qed.

(** * The selenium-standalone launcher *)

Import Selenium.

(** The merge of [onPrepare]: the descriptor's own fields win over the
    defaults. *)
Lemma Object_assign_default_connection (o : gmap string value) :
  Object_assign o [DEFAULT_CONNECTION; spread o] = o ∪ DEFAULT_CONNECTION.
Proof.
  unfold Object_assign, spread. simpl. apply map_eq. intros k.
  rewrite !lookup_union. by destruct (o !! k), (DEFAULT_CONNECTION !! k).
Qed.

Lemma default_connection_idempotent (o : gmap string value) :
  (o ∪ DEFAULT_CONNECTION) ∪ DEFAULT_CONNECTION = o ∪ DEFAULT_CONNECTION.
Proof.
  apply map_eq. intros k.
  rewrite !lookup_union. by destruct (o !! k), (DEFAULT_CONNECTION !! k).
Qed.

(** The [forEach] never throws, emits nothing, and only rewrites the
    store. *)
Lemma for_of_assign_default_connection caps : forall st t,
  exists h,
    for_of caps assign_default_connection st t = (set_heap h st, t, Ok tt) /\
    forall r, h r = merged_heap caps (caps_heap st) r.
Proof.
  induction caps as [|c caps IH]; intros st t.
  - exists (caps_heap st). split; [by destruct st|].
    intros r. unfold merged_heap. rewrite bool_decide_eq_false_2; [done|]. set_solver.
  - simpl. unfold bind at 1. unfold assign_default_connection at 1. unfold modify.
    rewrite Object_assign_default_connection.
    destruct (IH (set_heap (store (caps_heap st) c (caps_heap st c ∪ DEFAULT_CONNECTION)) st) t)
      as (h & Hrun & Hh).
    exists h. split; [by rewrite Hrun|].
    intros r. rewrite Hh. unfold merged_heap, store. simpl.
    destruct (decide (r = c)) as [->|Hne].
    + rewrite (bool_decide_eq_true_2 (c ∈ c :: caps)) by set_solver.
      case_bool_decide; [apply default_connection_idempotent|done].
    + assert (r ∈ c :: caps <-> r ∈ caps) as Hiff.
      { rewrite elem_of_cons. tauto. }
      by rewrite (bool_decide_ext _ _ Hiff).
Qed.

Section LauncherFacts.
Variable getFilePath : value -> string -> string.
Variable ensureFileSync : string -> option exn.
Variable child_stream : handle -> stream -> bool.

Local Abbreviation _redirectLogStream :=
  (Selenium._redirectLogStream getFilePath ensureFileSync child_stream).
Local Abbreviation onPrepare := (Selenium.onPrepare getFilePath ensureFileSync child_stream).
Local Abbreviation redirect_events := (Selenium.redirect_events getFilePath ensureFileSync).
Local Abbreviation redirect_error := (Selenium.redirect_error getFilePath ensureFileSync).

(** [onPrepare] in full: the watch flag is recorded, the descriptors are
    merged, [this.process] receives the function value; then log
    redirection touches the file system but pipes nothing, and in watch
    mode the first registration throws. *)
Lemma onPrepare_run config st t :
  exists st',
    this st' = this (prepared config st) /\
    (forall r, caps_heap st' r = caps_heap (prepared config st) r) /\
    onPrepare config st t =
    (st', t ++ redirect_events st,
     match redirect_error st with
     | Some err => Throw err
     | None =>
         if truthy (watch config)
         then Throw (TypeError "this.process.on is not a function")
         else Ok tt
     end).
Proof.
  unfold Selenium.onPrepare.
  unfold bind at 1. unfold modify at 1.
  unfold bind at 1. unfold read at 1.
  unfold bind at 1.
  set (st0 := set_watchMode (truthy (watch config)) st).
  assert ((if negb (skipSeleniumInstall (this st0))
           then _ <- await (E:=event) (L:=state)
                       (promisify (bind_this SeleniumStandalone_install (installArgs (this st0)))) ;;
                ret tt
           else ret tt) st0 t = (st0, t, Ok tt)) as ->.
  { by destruct (negb _). }
  unfold bind at 1.
  destruct (for_of_assign_default_connection (descriptors (capabilities (this st0))) st0 t)
    as (h & -> & Hh).
  unfold bind at 1. unfold modify at 1.
  set (st1 := set_process _ (set_heap h st0)).
  exists st1. split; [done|]. split; [intros r; apply Hh|].
  unfold redirect_events, redirect_error. simpl.
  unfold bind at 1.
  destruct (String.eqb (typeof (logPath (this st))) "string").
  - unfold Selenium._redirectLogStream.
    unfold bind at 1. unfold read at 1. unfold bind at 1. unfold emit at 1.
    simpl.
    destruct (ensureFileSync _) as [err|]; [done|].
    unfold bind, emit, process_pipe, bind, read, ret. simpl.
    destruct (truthy (watch config)); simpl.
    + unfold process_on, bind, read, throw. simpl. by rewrite <- app_assoc.
    + by rewrite <- app_assoc.
  - unfold ret at 1. rewrite app_nil_r.
    destruct (truthy (watch config)); simpl; [|done].
    unfold bind, process_on, bind, read, throw. by simpl.
Qed.

(** Log redirection is all [onPrepare] emits. *)
Lemma redirect_events_shape st :
  Forall (fun ev => match ev with EnsureFile _ | CreateWriteStream _ => True | _ => False end)
         (redirect_events st).
Proof.
  unfold redirect_events. destruct (String.eqb _ _); [|constructor].
  destruct (ensureFileSync _); repeat constructor.
Qed.

(** C1: whatever the configuration, [onPrepare] never invokes the
    dependency's [start]: it stores the promisified, bound function itself
    in [this.process], which therefore holds no child-process handle when
    log redirection and handler registration run. *)
Theorem onPrepare_start_never_invoked config st t :
  let '(st', t', _) := onPrepare config st t in
  process (this st') = PFunction (promisified (bound SeleniumStandalone_start (args (this st)))) /\
  (forall h, process (this st') <> PChild h) /\
  exists w, t' = t ++ w /\ (forall a, Start a ∉ w).
Proof.
  destruct (onPrepare_run config st t) as (st' & Hthis & _ & ->).
  rewrite Hthis. simpl. split; [done|]. split; [done|].
  eexists. split; [done|]. intros a Hin.
  pose proof (redirect_events_shape st) as Hshape.
  rewrite Forall_forall in Hshape. by apply Hshape in Hin.
Qed.

(** C2: whatever the install-skip flag, [onPrepare] never invokes the
    dependency's [install]; the later steps run all the same (the
    descriptors are merged and [this.process] is assigned). *)
Theorem onPrepare_install_never_invoked config st t :
  let '(st', t', _) := onPrepare config st t in
  (exists w, t' = t ++ w /\ (forall a, Install a ∉ w)) /\
  process (this st') = start_function st /\
  (forall r, caps_heap st' r
             = merged_heap (descriptors (capabilities (this st))) (caps_heap st) r).
Proof.
  destruct (onPrepare_run config st t) as (st' & Hthis & Hheap & ->).
  rewrite Hthis. simpl. split; [|split; [done|exact Hheap]].
  eexists. split; [done|]. intros a Hin.
  pose proof (redirect_events_shape st) as Hshape.
  rewrite Forall_forall in Hshape. by apply Hshape in Hin.
Qed.

(** The enumeration of [onPrepare] reaches every descriptor, and nothing
    else. *)
Lemma is_descriptor_listed c cap :
  is_descriptor c cap -> cap ∈ descriptors c.
Proof.
  intros [caps cap' H|caps key cap' H]; simpl; [done|].
  apply list_elem_of_In, in_map_iff. exists (key, cap').
  split; [done|by apply list_elem_of_In].
Qed.

Lemma listed_is_descriptor c cap :
  cap ∈ descriptors c -> is_descriptor c cap.
Proof.
  destruct c as [caps|caps]; simpl; intros H.
  - by constructor.
  - apply list_elem_of_In, in_map_iff in H as ([key cap'] & <- & H).
    apply (descriptor_of_key _ key). by apply list_elem_of_In.
Qed.

(** C3: after [onPrepare], every capability descriptor (an element of the
    list form or a property value of the keyed form) is its former self
    merged over the defaults: a
    field it lacked among protocol, hostname, port and path holds the
    default, and every field it had keeps its value. *)
Theorem onPrepare_merges_default_connection config st t cap :
  is_descriptor (capabilities (this st)) cap ->
  let '(st', _, _) := onPrepare config st t in
  capabilities (this st') = capabilities (this st) /\
  caps_heap st' cap = caps_heap st cap ∪ DEFAULT_CONNECTION /\
  (caps_heap st cap !! "protocol" = None ->
   caps_heap st' cap !! "protocol" = Some (VString "http")) /\
  (caps_heap st cap !! "hostname" = None ->
   caps_heap st' cap !! "hostname" = Some (VString "localhost")) /\
  (caps_heap st cap !! "port" = None ->
   caps_heap st' cap !! "port" = Some (VNumber 4444)) /\
  (caps_heap st cap !! "path" = None ->
   caps_heap st' cap !! "path" = Some (VString "/wd/hub")) /\
  (forall k v, caps_heap st cap !! k = Some v -> caps_heap st' cap !! k = Some v).
Proof.
  intros Hcap%is_descriptor_listed.
  destruct (onPrepare_run config st t) as (st' & Hthis & Hheap & ->).
  rewrite Hthis, Hheap. simpl.
  unfold merged_heap. rewrite bool_decide_eq_true_2 by done.
  split; [done|]. split; [done|].
  repeat split; try (intros Hnone; by rewrite lookup_union_r).
  intros k v Hk. by apply lookup_union_Some_l.
Qed.

(** C7: in the state [onPrepare] leaves behind no child process exists,
    yet [_stopProcess] logs and then throws, because [this.process] holds
    a function value without a [kill] method; so does [onComplete] outside
    watch mode. *)
Theorem stopProcess_after_onPrepare_throws config st t :
  let '(st', t', _) := onPrepare config st t in
  _stopProcess st' t'
    = (st', t' ++ [LogInfo "shutting down all browsers"],
       Throw (TypeError "this.process.kill is not a function")) /\
  (truthy (watch config) = false ->
   onComplete st' t'
     = (st', t' ++ [LogInfo "shutting down all browsers"],
        Throw (TypeError "this.process.kill is not a function"))).
Proof.
  destruct (onPrepare_run config st t) as (st' & Hthis & _ & ->).
  assert (forall t', _stopProcess st' t'
    = (st', t' ++ [LogInfo "shutting down all browsers"],
       Throw (TypeError "this.process.kill is not a function"))) as Hstop.
  { intros t'. unfold _stopProcess, bind, read. rewrite Hthis. simpl.
    unfold process_kill, bind, read, emit, throw. by rewrite Hthis. }
  split; [apply Hstop|].
  intros Hw. unfold onComplete, bind, read. rewrite Hthis. simpl. rewrite Hw. simpl.
  apply Hstop.
Qed.

(** C9: [onPrepare] registers nothing on the host process, in watch mode or
    not; in watch mode the registration is attempted on [this.process],
    which is a function value without an [on] method, so [onPrepare]
    throws and no listener is registered anywhere. *)
Theorem onPrepare_registers_no_host_listener config st t :
  let '(_, t', r) := onPrepare config st t in
  (exists w, t' = t ++ w /\ (forall ev, HostOn ev ∉ w) /\ (forall h ev, ChildOn h ev ∉ w)) /\
  (truthy (watch config) = true -> exists e, r = Throw e).
Proof.
  destruct (onPrepare_run config st t) as (st' & _ & _ & ->).
  split.
  - eexists. split; [done|].
    pose proof (redirect_events_shape st) as Hshape. rewrite Forall_forall in Hshape.
    split; [intros ev|intros h ev]; intros Hin; by apply Hshape in Hin.
  - intros ->. destruct (redirect_error st); eauto.
Qed.
End LauncherFacts.

(** *** [_stopProcess] on its own *)

(** Without a process [_stopProcess] does nothing. *)
Lemma stopProcess_without_process st t :
  process (this st) = PUndefined -> _stopProcess st t = (st, t, Ok tt).
Proof. intros H. unfold _stopProcess, bind, read. by rewrite H. Qed.

(** With a child-process handle it logs and kills. *)
Lemma stopProcess_with_handle st t h :
  process (this st) = PChild h ->
  _stopProcess st t = (st, t ++ [LogInfo "shutting down all browsers"; Kill h], Ok tt).
Proof.
  intros H. unfold _stopProcess, bind, read. rewrite H. simpl.
  unfold process_kill, bind, read, emit. rewrite H. by rewrite <- app_assoc.
Qed.

(** Before any process was started, any number of invocations do nothing. *)
Lemma stopProcess_idle_without_process st n t :
  process (this st) = PUndefined -> times n _stopProcess st t = (st, t, Ok tt).
Proof.
  intros H. induction n as [|n IH]; [done|].
  simpl. unfold bind. by rewrite (stopProcess_without_process st t H).
Qed.

(** In watch mode [onComplete] leaves the server alone. *)
Lemma onComplete_watch_mode st t :
  watchMode (this st) = true -> onComplete st t = (st, t, Ok tt).
Proof. intros H. unfold onComplete, bind, read. by rewrite H. Qed.

Lemma kills_app h t1 t2 : kills h (t1 ++ t2) = kills h t1 + kills h t2.
Proof. unfold kills. by rewrite List.filter_app, length_app. Qed.

(** C8 (as amended): once a handle exists, every invocation of
    [_stopProcess] issues one more [kill] on it: [n] invocations in
    succession all return normally, leave the launcher as it was, and issue
    exactly [n] kills. *)
Theorem stopProcess_kills_once_per_invocation st h n t :
  process (this st) = PChild h ->
  exists t', times n _stopProcess st t = (st, t', Ok tt) /\ kills h t' = kills h t + n.
Proof.
  intros H. revert t. induction n as [|n IH]; intros t.
  - exists t. split; [done|lia].
  - simpl. unfold bind. rewrite (stopProcess_with_handle st t h H).
    destruct (IH (t ++ [LogInfo "shutting down all browsers"; Kill h])) as (t' & -> & Hk).
    exists t'. split; [done|]. rewrite Hk, kills_app.
    unfold kills at 2. simpl. rewrite Nat.eqb_refl. simpl. lia.
Qed.

(** C3, witness: the first descriptor of the example launcher in list
    form, which defines its own port, and the second descriptor of the
    keyed form, which defines none of the four fields. *)
Lemma onPrepare_merges_default_connection_witness :
  (let '(st', _, _) :=
     Selenium.onPrepare example_getFilePath example_ensureFileSync example_child_stream
       {| outputDir := VUndefined; watch := VUndefined |} (example_state PUndefined) [] in
   capabilities (this st') = capabilities (this (example_state PUndefined)) /\
   caps_heap st' 0 = caps_heap (example_state PUndefined) 0 ∪ DEFAULT_CONNECTION /\
   (caps_heap (example_state PUndefined) 0 !! "protocol" = None ->
    caps_heap st' 0 !! "protocol" = Some (VString "http")) /\
   (caps_heap (example_state PUndefined) 0 !! "hostname" = None ->
    caps_heap st' 0 !! "hostname" = Some (VString "localhost")) /\
   (caps_heap (example_state PUndefined) 0 !! "port" = None ->
    caps_heap st' 0 !! "port" = Some (VNumber 4444)) /\
   (caps_heap (example_state PUndefined) 0 !! "path" = None ->
    caps_heap st' 0 !! "path" = Some (VString "/wd/hub")) /\
   (forall k v, caps_heap (example_state PUndefined) 0 !! k = Some v ->
                caps_heap st' 0 !! k = Some v)) /\
  (let '(st', _, _) :=
     Selenium.onPrepare example_getFilePath example_ensureFileSync example_child_stream
       {| outputDir := VUndefined; watch := VUndefined |}
       (example_multiremote_state PUndefined) [] in
   capabilities (this st') = capabilities (this (example_multiremote_state PUndefined)) /\
   caps_heap st' 1 = caps_heap (example_multiremote_state PUndefined) 1 ∪ DEFAULT_CONNECTION /\
   (caps_heap (example_multiremote_state PUndefined) 1 !! "protocol" = None ->
    caps_heap st' 1 !! "protocol" = Some (VString "http")) /\
   (caps_heap (example_multiremote_state PUndefined) 1 !! "hostname" = None ->
    caps_heap st' 1 !! "hostname" = Some (VString "localhost")) /\
   (caps_heap (example_multiremote_state PUndefined) 1 !! "port" = None ->
    caps_heap st' 1 !! "port" = Some (VNumber 4444)) /\
   (caps_heap (example_multiremote_state PUndefined) 1 !! "path" = None ->
    caps_heap st' 1 !! "path" = Some (VString "/wd/hub")) /\
   (forall k v, caps_heap (example_multiremote_state PUndefined) 1 !! k = Some v ->
                caps_heap st' 1 !! k = Some v)).
Proof.
  split.
  - apply (onPrepare_merges_default_connection example_getFilePath example_ensureFileSync
             example_child_stream
             {| outputDir := VUndefined; watch := VUndefined |} (example_state PUndefined) [] 0).
    simpl. apply descriptor_of_list. constructor.
  - apply (onPrepare_merges_default_connection example_getFilePath example_ensureFileSync
             example_child_stream
             {| outputDir := VUndefined; watch := VUndefined |}
             (example_multiremote_state PUndefined) [] 1).
    simpl. apply (descriptor_of_key _ "browserB"). apply list_elem_of_further. constructor.
Defined.

(** C8, counterexample: two invocations on a launcher holding handle 7
    issue two kills. *)
Lemma stopProcess_twice_kills_twice :
  exists t,
    times 2 _stopProcess (example_state (PChild 7)) []
      = (example_state (PChild 7), t, Ok tt) /\
    kills 7 t = 2 /\
    kills 7 t <> 1.
Proof.
  eexists. split; [vm_compute; reflexivity|]. split; [reflexivity|discriminate].
Qed.

(** C8, witness: three invocations on the same launcher. *)
Lemma stopProcess_kills_once_per_invocation_witness :
  exists t',
    times 3 _stopProcess (example_state (PChild 7)) []
      = (example_state (PChild 7), t', Ok tt) /\
    kills 7 t' = kills 7 [] + 3.
Proof.
  apply (stopProcess_kills_once_per_invocation (example_state (PChild 7)) 7 3 []).
  reflexivity.
Defined.

(** * The selenium-standalone launcher: further properties *)

(** X9: on a launcher as the constructor builds it, whatever the options,
    capabilities and configuration, [onComplete] and [_stopProcess] can be
    called any number of times: nothing is logged, nothing is killed and
    nothing is thrown. *)
Theorem fresh_launcher_can_always_be_stopped options caps config h n t :
  let st := {| this := constructor options caps config; caps_heap := h |} in
  times n onComplete st t = (st, t, Ok tt) /\
  times n _stopProcess st t = (st, t, Ok tt).
Proof.
  intros st. split.
  - induction n as [|n IH]; [done|]. simpl. unfold bind at 1.
    assert (onComplete st t = (st, t, Ok tt)) as -> by done. exact IH.
  - by apply stopProcess_idle_without_process.
Qed.

(** X10: with a live child process, [onComplete] kills it (once, after
    logging) outside watch mode and leaves it alone in watch mode; the
    launcher itself is unchanged either way. *)
Theorem onComplete_kills_unless_watching st t h :
  process (this st) = PChild h ->
  onComplete st t =
  if watchMode (this st) then (st, t, Ok tt)
  else (st, t ++ [LogInfo "shutting down all browsers"; Kill h], Ok tt).
Proof.
  intros H. unfold onComplete, bind, read.
  destruct (watchMode (this st)); [done|]. simpl.
  by apply stopProcess_with_handle.
Qed.

Section LauncherMore.
Variable getFilePath : value -> string -> string.
Variable ensureFileSync : string -> option exn.
Variable child_stream : handle -> stream -> bool.

Local Abbreviation _redirectLogStream :=
  (Selenium._redirectLogStream getFilePath ensureFileSync child_stream).
Local Abbreviation onPrepare := (Selenium.onPrepare getFilePath ensureFileSync child_stream).
Local Abbreviation redirect_events := (Selenium.redirect_events getFilePath ensureFileSync).
Local Abbreviation redirect_error := (Selenium.redirect_error getFilePath ensureFileSync).

(** X11: with a child process, [_redirectLogStream] first makes sure the
    log file exists, then opens it and pipes into that one file those of
    standard output and standard error that the child has, standard output
    first; a stream the child lacks is skipped without an error. If the
    file cannot be created the error is thrown and nothing is opened or
    piped. The launcher is unchanged. *)
Theorem redirectLogStream_pipes_present_streams st t h :
  process (this st) = PChild h ->
  let logFile := getFilePath (logPath (this st)) DEFAULT_LOG_FILENAME in
  _redirectLogStream st t =
  match ensureFileSync logFile with
  | None =>
      (st, t ++ [EnsureFile logFile; CreateWriteStream logFile]
             ++ List.map (fun s => Pipe h s logFile)
                         (List.filter (child_stream h) [stdout; stderr]), Ok tt)
  | Some err => (st, t ++ [EnsureFile logFile], Throw err)
  end.
Proof.
  intros H logFile. unfold Selenium._redirectLogStream.
  unfold bind at 1. unfold read at 1. unfold bind at 1. unfold emit at 1.
  fold logFile. destruct (ensureFileSync logFile); [done|].
  unfold bind, process_pipe, bind, read. simpl. rewrite H.
  destruct (child_stream h stdout) eqn:Hout, (child_stream h stderr) eqn:Herr;
    unfold emit, ret; simpl; rewrite ?H, ?Herr; simpl;
    by rewrite <- ?app_assoc.
Qed.

(** X12: [onPrepare] touches nothing but the watch flag, [this.process]
    and the listed descriptors: capabilities, log path, arguments and the
    skip flag are as before, the flag is the truthiness of [config.watch],
    and every object of the store that is not a listed descriptor is
    untouched. *)
Theorem onPrepare_frame config st t :
  let '(st', _, _) := onPrepare config st t in
  capabilities (this st') = capabilities (this st) /\
  logPath (this st') = logPath (this st) /\
  args (this st') = args (this st) /\
  installArgs (this st') = installArgs (this st) /\
  skipSeleniumInstall (this st') = skipSeleniumInstall (this st) /\
  watchMode (this st') = truthy (watch config) /\
  (forall r, r ∉ descriptors (capabilities (this st)) -> caps_heap st' r = caps_heap st r).
Proof.
  destruct (onPrepare_run getFilePath ensureFileSync child_stream config st t)
    as (st' & Hthis & Hheap & ->).
  rewrite Hthis. simpl. repeat split.
  intros r Hr. rewrite Hheap. simpl. unfold merged_heap.
  by rewrite bool_decide_eq_false_2.
Qed.

(** X13: preparing twice merges no further: after a second [onPrepare],
    with whatever configuration and whether or not either call threw,
    every object of the store is as the first call left it. *)
Theorem onPrepare_twice_merges_once config config' st t :
  let '(st1, t1, _) := onPrepare config st t in
  let '(st2, _, _) := onPrepare config' st1 t1 in
  forall r, caps_heap st2 r = caps_heap st1 r.
Proof.
  destruct (onPrepare_run getFilePath ensureFileSync child_stream config st t)
    as (st1 & Hthis1 & Hheap1 & ->).
  destruct (onPrepare_run getFilePath ensureFileSync child_stream config' st1
              (t ++ redirect_events st))
    as (st2 & Hthis2 & Hheap2 & ->).
  intros r. rewrite Hheap2. simpl. unfold merged_heap.
  rewrite Hthis1. simpl. case_bool_decide as Hr; [|done].
  rewrite Hheap1. simpl. unfold merged_heap. rewrite bool_decide_eq_true_2 by done.
  apply default_connection_idempotent.
Qed.

(** X14: where the log goes is settled by the constructor: the file system
    is touched exactly when [options.logPath || config.outputDir] of the
    constructor is a string, for the log file under that path; the
    [outputDir] of the configuration handed to [onPrepare] plays no part. *)
Theorem log_path_is_fixed_at_construction options caps config0 h config t :
  let st := {| this := constructor options caps config0; caps_heap := h |} in
  let path := or_else (SeleniumStandaloneOptions.logPath options) (outputDir config0) in
  let logFile := getFilePath path DEFAULT_LOG_FILENAME in
  let '(_, t', _) := onPrepare config st t in
  t' = t ++ (if String.eqb (typeof path) "string"
             then EnsureFile logFile ::
                    match ensureFileSync logFile with
                    | Some _ => []
                    | None => [CreateWriteStream logFile]
                    end
             else []).
Proof.
  intros st path logFile.
  destruct (onPrepare_run getFilePath ensureFileSync child_stream config st t) as (st' & _ & _ & ->).
  reflexivity.
Qed.

(** X15: when the log path is a string and the log file cannot be created,
    [onPrepare] throws the file system's error right after the attempt:
    no stream is opened and no listener registration is attempted, while
    the descriptors have already been merged. *)
Theorem onPrepare_propagates_log_file_failure config st t err :
  typeof (logPath (this st)) = "string" ->
  ensureFileSync (getFilePath (logPath (this st)) DEFAULT_LOG_FILENAME) = Some err ->
  let '(st', t', r) := onPrepare config st t in
  r = Throw err /\
  t' = t ++ [EnsureFile (getFilePath (logPath (this st)) DEFAULT_LOG_FILENAME)] /\
  (forall cap, cap ∈ descriptors (capabilities (this st)) ->
     caps_heap st' cap = caps_heap st cap ∪ DEFAULT_CONNECTION).
Proof.
  intros Hs Herr.
  destruct (onPrepare_run getFilePath ensureFileSync child_stream config st t)
    as (st' & _ & Hheap & ->).
  unfold Selenium.redirect_events, Selenium.redirect_error. rewrite Hs, Herr. simpl.
  repeat split.
  intros cap Hcap. rewrite Hheap. simpl. unfold merged_heap.
  by rewrite bool_decide_eq_true_2.
Qed.
End LauncherMore.

(** X10, witness: the example launcher holding handle 7, outside watch
    mode. *)
Lemma onComplete_kills_unless_watching_witness :
  onComplete (example_state (PChild 7)) []
  = (example_state (PChild 7), [LogInfo "shutting down all browsers"; Kill 7], Ok tt).
Proof.
  apply (onComplete_kills_unless_watching (example_state (PChild 7)) [] 7).
  reflexivity.
Defined.

(** X11, witness: the logging example launcher holding handle 7, once
    with both streams and once with a child that has no standard error. *)
Lemma redirectLogStream_pipes_present_streams_witness :
  Selenium._redirectLogStream example_getFilePath example_ensureFileSync example_child_stream
    (example_logging_state (PChild 7)) []
  = (example_logging_state (PChild 7),
     [EnsureFile "logs/wdio-selenium-standalone.log";
      CreateWriteStream "logs/wdio-selenium-standalone.log";
      Pipe 7 stdout "logs/wdio-selenium-standalone.log";
      Pipe 7 stderr "logs/wdio-selenium-standalone.log"],
     Ok tt) /\
  Selenium._redirectLogStream example_getFilePath example_ensureFileSync stdout_only
    (example_logging_state (PChild 7)) []
  = (example_logging_state (PChild 7),
     [EnsureFile "logs/wdio-selenium-standalone.log";
      CreateWriteStream "logs/wdio-selenium-standalone.log";
      Pipe 7 stdout "logs/wdio-selenium-standalone.log"],
     Ok tt).
Proof.
  split.
  - apply (redirectLogStream_pipes_present_streams example_getFilePath example_ensureFileSync
             example_child_stream (example_logging_state (PChild 7)) [] 7).
    reflexivity.
  - apply (redirectLogStream_pipes_present_streams example_getFilePath example_ensureFileSync
             stdout_only (example_logging_state (PChild 7)) [] 7).
    reflexivity.
Defined.

(** X15, witness: the logging example launcher on a file system that
    refuses to create the log file. *)
Lemma onPrepare_propagates_log_file_failure_witness :
  let '(st', t', r) :=
    Selenium.onPrepare example_getFilePath failing_ensureFileSync example_child_stream
      {| outputDir := VUndefined; watch := VUndefined |}
      (example_logging_state PUndefined) [] in
  r = Throw (Thrown (VString "EACCES: permission denied")) /\
  t' = [] ++ [EnsureFile (example_getFilePath (logPath (this (example_logging_state PUndefined)))
                                              DEFAULT_LOG_FILENAME)] /\
  (forall cap, cap ∈ descriptors (capabilities (this (example_logging_state PUndefined))) ->
     caps_heap st' cap = caps_heap (example_logging_state PUndefined) cap ∪ DEFAULT_CONNECTION).
Proof.
  apply (onPrepare_propagates_log_file_failure example_getFilePath failing_ensureFileSync
           example_child_stream
           {| outputDir := VUndefined; watch := VUndefined |}
           (example_logging_state PUndefined) []
           (Thrown (VString "EACCES: permission denied"))).
  - reflexivity.
  - reflexivity.
Defined.
